(** * AdGuard Home filter optimizer: a shallow embedding of [scripts/optimizer.py]

    The development follows the methods of [FilterOptimizer] one by one:
    [normalize_rule], [convert_to_pipe_format], [deduplicate_rules],
    [domain_convergence], [save_removed_rules], [save_results],
    [save_statistics] and [run].

    Modelling conventions.
    - A Python [str] is a [list ascii]; a character is a code point below 256.
    - [self.stats] is a dictionary keyed by field name: a [gmap string value].
      Reading a key that was never stored raises [KeyError].
    - [set()] objects are [gset]s; the insertion-ordered [dict] of
      [domain_convergence] is an association list.
    - Methods that touch [self.stats], the clock or the output files run in a
      state-and-exception monad over [world]; what was written before an
      exception stays written. *)

From Stdlib Require Import Ascii String QArith.
From stdpp Require Import base list strings gmap sorting pretty.

#[local] Set Warnings "-clear-no-such-hyp,-register-all".

Local Open Scope list_scope.
Local Open Scope bool_scope.

Abbreviation text := (list ascii).

(** String literals of the source, as character lists. *)
Definition txt (s : string) : text := list_ascii_of_string s.

(* ===================================================================== *)
(** ** Python string primitives *)
(* ===================================================================== *)

Module Str.

(** [str.isspace] on one character, for code points below 256:
    TAB..CR, FS..US, SPACE, NEL and NBSP. The same class is [\s] of [re]. *)
Definition is_space (c : ascii) : bool :=
  let n := N_of_ascii c in
  ((9 <=? n) && (n <=? 13) || (28 <=? n) && (n <=? 32)
   || (n =? 133) || (n =? 160))%N.

Fixpoint lstrip (s : text) : text :=
  match s with
  | [] => []
  | c :: t => if is_space c then lstrip t else s
  end.

Definition rstrip (s : text) : text := rev (lstrip (rev s)).

(** [s.strip()] *)
Definition strip (s : text) : text := rstrip (lstrip s).

(** [s.startswith(p)] *)
Fixpoint startswith (p s : text) : bool :=
  match p, s with
  | [], _ => true
  | _ :: _, [] => false
  | a :: p', b :: s' => if decide (a = b) then startswith p' s' else false
  end.

(** [s.endswith(p)] *)
Definition endswith (p s : text) : bool := startswith (rev p) (rev s).

(** [c in s] for a one-character needle *)
Definition contains (c : ascii) (s : text) : bool := bool_decide (c ∈ s).

(** [s.split(sep, 1)] when [sep] occurs in [s]: the text before the first
    [sep] and the text after it. Without a [sep] the second part is empty. *)
Fixpoint split_first (sep : ascii) (s : text) : text * text :=
  match s with
  | [] => ([], [])
  | c :: t =>
      if decide (c = sep) then ([], t)
      else let '(a, b) := split_first sep t in (c :: a, b)
  end.

(** [s.split(sep)]: always at least one piece. *)
Fixpoint split (sep : ascii) (s : text) : list text :=
  match s with
  | [] => [[]]
  | c :: t =>
      if decide (c = sep) then [] :: split sep t
      else match split sep t with
           | p :: ps => (c :: p) :: ps
           | [] => [[c]]
           end
  end.

(** [sep.join(parts)] *)
Fixpoint join (sep : text) (parts : list text) : text :=
  match parts with
  | [] => []
  | [p] => p
  | p :: ps => p ++ sep ++ join sep ps
  end.

(** [re.sub(r'\s+', ' ', s)]: every maximal run of white space becomes one
    space. [in_run] tells that the previous character was white space. *)
Fixpoint collapse_spaces (in_run : bool) (s : text) : text :=
  match s with
  | [] => []
  | c :: t =>
      if is_space c
      then (if in_run then collapse_spaces true t
            else " "%char :: collapse_spaces true t)
      else c :: collapse_spaces false t
  end.

(** [a < b] on strings: code point order, a proper prefix comes first. *)
Fixpoint ltb (a b : text) : bool :=
  match a, b with
  | _, [] => false
  | [], _ :: _ => true
  | x :: a', y :: b' =>
      let nx := N_of_ascii x in
      let ny := N_of_ascii y in
      if (nx <? ny)%N then true
      else if (nx =? ny)%N then ltb a' b' else false
  end.

(** [s[i:j]] for [0 <= i] and a negative [j = -k]. *)
Definition slice_from_to_last (i k : nat) (s : text) : text :=
  drop i (take (length s - k) s).

End Str.

(* ===================================================================== *)
(** ** Stable sorting, as [sorted] and [list.sort] do it *)
(* ===================================================================== *)

Section StableSort.
Context {A : Type}.
(** [before y x]: [y] sorts strictly before [x]. *)
Variable before : A → A → bool.

(** An element is placed in front of everything that does not sort strictly
    before it, so among equal keys the earlier element of the input stays
    first. *)
Fixpoint insert_sorted (x : A) (l : list A) : list A :=
  match l with
  | [] => [x]
  | y :: l' => if before y x then y :: insert_sorted x l' else x :: l
  end.

Definition stable_sort (l : list A) : list A := foldr insert_sorted [] l.

(** [y] may stand in front of [x]: [x] does not sort strictly before [y]. *)
Definition in_order (y x : A) : Prop := before x y = false.
End StableSort.

(** [sorted(rules)] and [valid_modifiers.sort()] on strings. *)
Definition sorted_texts (l : list text) : list text := stable_sort Str.ltb l.

(** [sorted(keys, key=len, reverse=True)]: longest first, ties in input order. *)
Definition sorted_by_len_desc (l : list text) : list text :=
  stable_sort (λ y x, length x <? length y) l.

(* ===================================================================== *)
(** ** The fragment of [re] the program uses *)
(* ===================================================================== *)

Module Re.

(** Patterns: a literal character, concatenation and a greedy repetition
    [cls{n,}] of a character class ([cls+] is [cls{1,}]). *)
Inductive regex : Type :=
| Lit (c : ascii)
| Cat (r1 r2 : regex)
| Many (n : nat) (p : ascii → bool).

(** The longest prefix of [s] made of characters of the class. *)
Fixpoint span_len (p : ascii → bool) (s : text) : nat :=
  match s with
  | c :: t => if p c then S (span_len p t) else 0
  | [] => 0
  end.

(** Candidate lengths of a greedy repetition, tried longest first:
    [hi, hi-1, ..., lo]. *)
Fixpoint lengths_down (lo hi : nat) : list nat :=
  if decide (hi < lo) then []
  else match hi with
       | 0 => [0]
       | S h => hi :: lengths_down lo h
       end.

(** All the ways to match [r] at the start of [s], in the order in which a
    backtracking matcher tries them: the matched text and what follows. *)
Fixpoint matches (r : regex) (s : text) : list (text * text) :=
  match r with
  | Lit c =>
      match s with
      | c' :: t => if decide (c' = c) then [([c'], t)] else []
      | [] => []
      end
  | Cat r1 r2 =>
      '(m1, rest1) ← matches r1 s;
      '(m2, rest2) ← matches r2 rest1;
      [(m1 ++ m2, rest2)]
  | Many n p =>
      (λ k, (take k s, drop k s)) <$> lengths_down n (span_len p s)
  end.

(** [re.match(r, s)]: the first successful way, if any; the text matched. *)
Definition re_match (r : regex) (s : text) : option text :=
  fst <$> head (matches r s).

(** [re.search(r, s)]: the match at the leftmost position that has one. *)
Fixpoint re_search (r : regex) (s : text) : option text :=
  match re_match r s with
  | Some m => Some m
  | None =>
      match s with
      | [] => None
      | _ :: t => re_search r t
      end
  end.

Definition in_range (lo hi c : ascii) : bool :=
  ((N_of_ascii lo <=? N_of_ascii c) && (N_of_ascii c <=? N_of_ascii hi))%N.

(** [[a-zA-Z]] *)
Definition is_letter (c : ascii) : bool :=
  in_range "a" "z" c || in_range "A" "Z" c.

(** [[a-zA-Z0-9.-]] *)
Definition is_host_char (c : ascii) : bool :=
  is_letter c || in_range "0" "9" c
  || bool_decide (c = "."%char) || bool_decide (c = "-"%char).

(** [[^/^$]] *)
Definition not_slash_caret_dollar (c : ascii) : bool :=
  negb (bool_decide (c = "/"%char) || bool_decide (c = "^"%char)
        || bool_decide (c = "$"%char)).

(** [r'^\|\|([^/^$]+)\^'] (the leading [^] is implied by [re.match]) *)
Definition anchored_host : regex :=
  Cat (Lit "|") (Cat (Lit "|") (Cat (Many 1 not_slash_caret_dollar) (Lit "^"))).

(** [r'([a-zA-Z0-9.-]+\.[a-zA-Z]{2,})']; group 1 is the whole match. *)
Definition plain_domain : regex :=
  Cat (Many 1 is_host_char) (Cat (Lit ".") (Many 2 is_letter)).

End Re.

(* ===================================================================== *)
(** ** Configuration *)
(* ===================================================================== *)

(** The keys of [self.config] that the rule pipeline reads. *)
Record config : Type := Config {
  format_standardize : bool;
  domain_convergence_on : bool;
  supported_modifiers : list text
}.

(** [default_config] of [load_config]. *)
Definition default_config : config := {|
  format_standardize := true;
  domain_convergence_on := true;
  supported_modifiers :=
    txt <$> ["domain"; "third-party"; "important"; "client";
             "dnstype"; "dnsrewrite"; "rewrite"]%string
|}.

(* ===================================================================== *)
(** ** [convert_to_pipe_format] and [normalize_rule] *)
(* ===================================================================== *)

Definition convert_to_pipe_format (rule : text) : text :=
  if Str.startswith (txt "||") rule && Str.endswith (txt "^") rule then rule
  else if Str.startswith (txt "@@||") rule && Str.endswith (txt "^") rule then rule
  else match Re.re_match Re.anchored_host rule with
  | Some _ => rule
  | None =>
      match Re.re_search Re.plain_domain rule with
      | Some domain =>
          if Str.startswith (txt "@@") rule
          then txt "@@||" ++ domain ++ txt "^"
          else txt "||" ++ domain ++ txt "^"
      | None => rule
      end
  end.

(** [modifier.split('=')[0]] *)
Definition mod_name (modifier : text) : text :=
  default [] (head (Str.split "=" modifier)).

(** The truth value of a sequence: false exactly when it is empty. *)
Definition truthy {A} (s : list A) : bool :=
  match s with [] => false | _ :: _ => true end.

(** [[m.strip() for m in modifiers.split(',') if m.strip()]] *)
Definition modifier_list (modifiers : text) : list text :=
  Str.strip <$> filter (λ m, truthy (Str.strip m)) (Str.split "," modifiers).

(** The loop that keeps the modifiers whose name is supported. *)
Definition valid_modifiers (cfg : config) (modifiers : text) : list text :=
  filter (λ m, mod_name m ∈ supported_modifiers cfg) (modifier_list modifiers).

(** The [if '$' in rule:] block: [rule] is already stripped and collapsed. *)
Definition filter_modifiers (cfg : config) (rule : text) : text :=
  if Str.contains "$" rule then
    let '(p0, m0) := Str.split_first "$" rule in
    let pattern := Str.strip p0 in
    let modifiers := Str.strip m0 in
    match valid_modifiers cfg modifiers with
    | [] => pattern
    | (_ :: _) as valid => pattern ++ txt "$" ++ Str.join (txt ",") (sorted_texts valid)
    end
  else rule.

(** [normalize_rule]: [None] is Python's [None]. *)
Definition normalize_rule (cfg : config) (raw : text) : option text :=
  let rule := Str.strip raw in
  if negb (truthy rule)
     || Str.startswith (txt "!") rule || Str.startswith (txt "#") rule
  then None
  else
    let rule := Str.collapse_spaces false rule in
    let rule := filter_modifiers cfg rule in
    let rule := if format_standardize cfg then convert_to_pipe_format rule else rule in
    Some rule.

(* ===================================================================== *)
(** ** The pure cores of [deduplicate_rules] and [domain_convergence] *)
(* ===================================================================== *)

(** One iteration of the loop of [deduplicate_rules] over
    [(seen, unique_rules, duplicates)]. *)
Definition dedup_step (st : gset text * list text * list text) (rule : text)
  : gset text * list text * list text :=
  let '(seen, unique_rules, duplicates) := st in
  if decide (rule ∉ seen)
  then ({[rule]} ∪ seen, unique_rules ++ [rule], duplicates)
  else (seen, unique_rules, duplicates ++ [rule]).

(** The whole loop: [(unique_rules, duplicates)] at its end. *)
Definition dedup_scan (rules : list text) : list text * list text :=
  let '(_, unique_rules, duplicates) := foldl dedup_step (∅, [], []) rules in
  (unique_rules, duplicates).

(** [rule.startswith('||') and rule.endswith('^')] *)
Definition is_domain_rule (rule : text) : bool :=
  Str.startswith (txt "||") rule && Str.endswith (txt "^") rule.

(** [rule[2:-1]] *)
Definition domain_of (rule : text) : text := Str.slice_from_to_last 2 1 rule.

(** The insertion-ordered dictionary [domain_rules]. *)
Module Dict.
Definition t : Type := list (text * text).

(** [d[k] = v]: an existing key keeps its place and takes the new value, a
    new key goes to the end. *)
Fixpoint set (k v : text) (d : t) : t :=
  match d with
  | [] => [(k, v)]
  | (k', v') :: d' =>
      if decide (k = k') then (k, v) :: d' else (k', v') :: set k v d'
  end.

(** [d[k]]; [None] stands for [KeyError]. *)
Fixpoint get (k : text) (d : t) : option text :=
  match d with
  | [] => None
  | (k', v') :: d' => if decide (k = k') then Some v' else get k d'
  end.

(** [d.keys()], in insertion order. *)
Definition keys (d : t) : list text := d.*1.
End Dict.

(** One iteration of the loop that fills [domain_rules] and [other_rules]. *)
Definition partition_step (st : Dict.t * list text) (rule : text)
  : Dict.t * list text :=
  let '(domain_rules, other_rules) := st in
  if is_domain_rule rule
  then (Dict.set (domain_of rule) rule domain_rules, other_rules)
  else (domain_rules, other_rules ++ [rule]).

Definition partition_rules (rules : list text) : Dict.t * list text :=
  foldl partition_step ([], []) rules.

(** [domain.endswith('.' + other) or domain == other] *)
Definition covered_by (domain other : text) : bool :=
  Str.endswith (txt "." ++ other) domain || bool_decide (domain = other).

(** The nested loop over [sorted_domains]: [domain] is the head, the inner loop
    runs over [sorted_domains[i+1:]] and stops at the first hit. *)
Fixpoint mark_subdomains (sorted_domains : list text) (to_remove : gset text)
  : gset text :=
  match sorted_domains with
  | [] => to_remove
  | domain :: later =>
      if existsb (covered_by domain) later
      then mark_subdomains later ({[domain]} ∪ to_remove)
      else mark_subdomains later to_remove
  end.

(** [to_remove] as [domain_convergence] computes it from its argument. *)
Definition hosts_to_remove (rules : list text) : gset text :=
  mark_subdomains (sorted_by_len_desc (Dict.keys (partition_rules rules).1)) ∅.

(* ===================================================================== *)
(** ** The optimizer object, its files and the clock *)
(* ===================================================================== *)

(** Values stored in [self.stats]. A [datetime] is the index of the clock
    reading that produced it; [duration_seconds] is kept as the pair of readings
    it is the difference of; [reduction_percent] is kept as the exact quotient
    (the rounding of the float division is not modelled). *)
Inductive value : Type :=
| VInt (n : Z)
| VRatio (q : Q)
| VTime (reading : nat)
| VSeconds (t_start t_end : nat).

(** One block of the removal log, as [save_removed_rules] appends it. *)
Record removal_record : Type := RemovalRecord {
  rr_reason : string;
  rr_time : nat;
  rr_count : nat;
  rr_rules : list text
}.

Record world : Type := World {
  (** [self.stats] *)
  stats : gmap string value;
  (** how many times [datetime.now()] was called *)
  ticks : nat;
  (** the source directory: [None] when it does not exist, else the files
      matched by the two globs, in order; an unreadable file is [None] *)
  source_dir : option (list (option (list text)));
  (** [output.removed_rules_log], opened for appending *)
  removed_log : list removal_record;
  (** [output.optimized_file]: [None] until it is written *)
  optimized_file : option text;
  (** [output.statistics_file]: the dictionary dumped, [None] until written *)
  statistics_file : option (gmap string value)
}.

Inductive exn : Type :=
| KeyError (key : text)
| TypeError
| ZeroDivisionError.

Inductive outcome (A : Type) : Type :=
| Returns (a : A)
| Raises (e : exn).
Arguments Returns {A} a.
Arguments Raises {A} e.

(** Computations on the optimizer: the state survives an exception. *)
Definition M (A : Type) : Type := world → outcome A * world.

Global Instance M_ret : MRet M := λ A a w, (Returns a, w).
Global Instance M_bind : MBind M := λ A B f m w,
  match m w with
  | (Returns a, w') => f a w'
  | (Raises e, w') => (Raises e, w')
  end.

Definition raise {A} (e : exn) : M A := λ w, (Raises e, w).
Definition get_world : M world := λ w, (Returns w, w).
Definition modify (f : world → world) : M unit := λ w, (Returns (), f w).

(** Field updates of the world. *)
Definition with_stats (f : gmap string value → gmap string value) (w : world)
  : world :=
  World (f (stats w)) (ticks w) (source_dir w) (removed_log w)
        (optimized_file w) (statistics_file w).
Definition with_tick (w : world) : world :=
  World (stats w) (S (ticks w)) (source_dir w) (removed_log w)
        (optimized_file w) (statistics_file w).
Definition with_log_entry (r : removal_record) (w : world) : world :=
  World (stats w) (ticks w) (source_dir w) (removed_log w ++ [r])
        (optimized_file w) (statistics_file w).
Definition with_optimized (content : text) (w : world) : world :=
  World (stats w) (ticks w) (source_dir w) (removed_log w)
        (Some content) (statistics_file w).
Definition with_statistics (doc : gmap string value) (w : world) : world :=
  World (stats w) (ticks w) (source_dir w) (removed_log w)
        (optimized_file w) (Some doc).

(** [datetime.now()] *)
Definition now : M nat :=
  w ← get_world;
  modify with_tick;;
  mret (ticks w).

(** [self.stats[key]] *)
Definition stat (key : string) : M value :=
  w ← get_world;
  match stats w !! key with
  | Some v => mret v
  | None => raise (KeyError (txt key))
  end.

(** [self.stats[key]] used as a number in integer arithmetic *)
Definition stat_int (key : string) : M Z :=
  v ← stat key;
  match v with
  | VInt n => mret n
  | _ => raise TypeError
  end.

(** [self.stats[key] = v] *)
Definition set_stat (key : string) (v : value) : M unit :=
  modify (with_stats <[key := v]>).

(** [[d[k] for k in ks]] *)
Fixpoint lookup_all (d : Dict.t) (ks : list text) : M (list text) :=
  match ks with
  | [] => mret []
  | k :: ks' =>
      match Dict.get k d with
      | Some v => vs ← lookup_all d ks'; mret (v :: vs)
      | None => raise (KeyError k)
      end
  end.

(** The dictionary literal of [__init__]: five counters and the start time. *)
Definition init_stats (t : nat) : gmap string value :=
  <["start_time" := VTime t]>
    (<["final_count" := VInt 0]>
    (<["converged_count" := VInt 0]>
    (<["duplicate_count" := VInt 0]>
    (<["valid_count" := VInt 0]>
    (<["original_count" := VInt 0]> ∅))))).

(** What the run takes from the Python runtime besides the clock's order:
    the texts of [strftime('%Y%m%d%H%M%S')] and [isoformat()] of a clock
    reading, and of a number under the format [.2f]. *)
Record runtime : Type := Runtime {
  strftime : nat → text;
  isoformat : nat → text;
  format_2f : Q → text
}.

Definition nl : text := ["010"%char].

(** [str(len(xs))] and the default formatting of an integer *)
Definition decimal (n : Z) : text := txt (pretty n).

(* ===================================================================== *)
(** ** The methods of [FilterOptimizer] *)
(* ===================================================================== *)

Section FilterOptimizer.
(** [self.config] after [load_config], and the runtime's renderings. *)
Variable cfg : config.
Variable rt : runtime.

(** [__init__]: [self.stats] is a fresh dictionary. *)
Definition init : M unit :=
  t ← now;
  modify (with_stats (λ _, init_stats t)).

(** [load_rules]: a missing directory returns before the count is stored;
    an unreadable file is skipped. *)
Definition load_rules : M (list text) :=
  w ← get_world;
  match source_dir w with
  | None => mret []
  | Some files =>
      let rules := concat (omap id files) in
      set_stat "original_count" (VInt (Z.of_nat (length rules)));;
      mret rules
  end.

Definition save_removed_rules (rules : list text) (reason : string) : M unit :=
  t ← now;
  modify (with_log_entry (RemovalRecord reason t (length rules) rules)).

Definition deduplicate_rules (rules : list text) : M (list text) :=
  let '(unique_rules, duplicates) := dedup_scan rules in
  set_stat "duplicate_count" (VInt (Z.of_nat (length duplicates)));;
  (if truthy duplicates then save_removed_rules duplicates "duplicates"
   else mret ());;
  mret unique_rules.

(** [domain_convergence]. Python iterates the set [to_remove] in an order
    that depends on the hash seed of the process; the batch handed to
    [save_removed_rules] is taken here in the order of [elements], and the
    theorems speak of the batch only up to its order. *)
Definition domain_convergence (rules : list text) : M (list text) :=
  if negb (domain_convergence_on cfg) then mret rules
  else
    let '(domain_rules, other_rules) := partition_rules rules in
    let sorted_domains := sorted_by_len_desc (Dict.keys domain_rules) in
    let to_remove := mark_subdomains sorted_domains ∅ in
    final_domain_rules ←
      lookup_all domain_rules
        (filter (λ d, d ∉ to_remove) (Dict.keys domain_rules));
    let final_rules := other_rules ++ final_domain_rules in
    set_stat "converged_count" (VInt (Z.of_nat (size to_remove)));;
    (if decide (to_remove = ∅) then mret ()
     else removed_subdomains ← lookup_all domain_rules (elements to_remove);
          save_removed_rules removed_subdomains "subdomains");;
    mret final_rules.

(** The default formatting of a statistics value inside an f-string. The
    header reads [original_count], under which the program stores integers
    only; the two last cases stand for values that only a hand-made
    [self.stats] holds there, rendered by the runtime. *)
Definition format_value (v : value) : text :=
  match v with
  | VInt n => decimal n
  | VRatio q => format_2f rt q
  | VTime t => isoformat rt t
  | VSeconds _ t => isoformat rt t
  end.

(** A statistics value under the format [.2f]. The program stores an
    integer or a ratio under [reduction_percent], the key this is used for;
    the last case stands for values that only a hand-made [self.stats] holds
    there. *)
Definition format_percent (v : value) : M text :=
  match v with
  | VInt n => mret (format_2f rt (inject_Z n))
  | VRatio q => mret (format_2f rt q)
  | _ => raise TypeError
  end.

(** The f-string [header] of [save_results], its fields already rendered. *)
Definition header (version last_modified original optimized reduction : text)
  : text :=
  txt "! Title: Optimized AdGuard Home Filters" ++ nl ++
  txt "! Description: Optimized filter list for AdGuard Home" ++ nl ++
  txt "! Version: " ++ version ++ nl ++
  txt "! Last Modified: " ++ last_modified ++ nl ++
  txt "! Optimizer: GitHub Actions Automation" ++ nl ++
  txt "! Original Rules: " ++ original ++ nl ++
  txt "! Optimized Rules: " ++ optimized ++ nl ++
  txt "! Reduction: " ++ reduction ++ txt "%" ++ nl ++
  txt "! " ++ nl.

(** [save_results]: the header is built, field by field from left to right,
    before the file is opened. *)
Definition save_results (rules : list text) : M unit :=
  t1 ← now;
  t2 ← now;
  original ← stat "original_count";
  reduction ← stat "reduction_percent";
  reduction_text ← format_percent reduction;
  let head := header (strftime rt t1) (isoformat rt t2) (format_value original)
                     (decimal (Z.of_nat (length rules))) reduction_text in
  let body := concat ((λ rule, rule ++ nl) <$> sorted_texts rules) in
  modify (with_optimized (head ++ body)).

Definition save_statistics : M unit :=
  valid ← stat_int "valid_count";
  dup ← stat_int "duplicate_count";
  conv ← stat_int "converged_count";
  set_stat "final_count" (VInt (valid - dup - conv));;
  t ← now;
  set_stat "end_time" (VTime t);;
  t_end ← stat "end_time";
  t_start ← stat "start_time";
  match t_end, t_start with
  | VTime e, VTime s =>
      set_stat "duration_seconds" (VSeconds s e);;
      original ← stat_int "original_count";
      (if (0 <? original)%Z
       then original' ← stat_int "original_count";
            final ← stat_int "final_count";
            original'' ← stat_int "original_count";
            match original'' with
            | Zpos d => set_stat "reduction_percent"
                          (VRatio (Qmake ((original' - final) * 100) d))
            | Zneg d => set_stat "reduction_percent"
                          (VRatio (Qmake (- ((original' - final) * 100)) d))
            | Z0 => raise ZeroDivisionError
            end
       else set_stat "reduction_percent" (VInt 0));;
      w ← get_world;
      modify (with_statistics (stats w))
  | _, _ => raise TypeError
  end.

(** [print_statistics] only reads: seven keys of [self.stats]. *)
Definition print_statistics : M unit :=
  stat "original_count";; stat "valid_count";; stat "duplicate_count";;
  stat "converged_count";; stat "final_count";; stat "reduction_percent";;
  stat "duration_seconds";; mret ().

(** The loop of step 2 of [run]: [None] and the empty string are dropped. *)
Definition normalize_all (raw_rules : list text) : list text :=
  omap (λ rule, normalized ← normalize_rule cfg rule;
                if truthy normalized then Some normalized else None)
       raw_rules.

Definition run : M bool :=
  raw_rules ← load_rules;
  if negb (truthy raw_rules) then mret false
  else
    let normalized_rules := normalize_all raw_rules in
    set_stat "valid_count" (VInt (Z.of_nat (length normalized_rules)));;
    deduplicated_rules ← deduplicate_rules normalized_rules;
    final_rules ← domain_convergence deduplicated_rules;
    save_results final_rules;;
    save_statistics;;
    print_statistics;;
    mret true.

(** The [__main__] block: the exit status of the process. An exception that
    nobody catches ends the interpreter with status 1. *)
Definition main (w : world) : Z * world :=
  match (init;; run) w with
  | (Returns true, w') => (0%Z, w')
  | (Returns false, w') => (1%Z, w')
  | (Raises _, w') => (1%Z, w')
  end.

End FilterOptimizer.

(* ===================================================================== *)
(** ** [load_config] and [update_config] *)
(* ===================================================================== *)

(** A configuration value as [update_config] tells values apart: a dictionary,
    with its keys in insertion order, or anything else (a flag, a string, a
    list, ...). *)
Inductive yaml (V : Type) : Type :=
| Other (v : V)
| Mapping (entries : list (text * yaml V)).
Arguments Other {V} v.
Arguments Mapping {V} entries.

(** What is at [config_path]: nothing, a file that cannot be opened or
    parsed, or a file with what [yaml.safe_load] makes of it ([None] for an
    empty document). *)
Inductive config_file (V : Type) : Type :=
| Missing
| Unreadable
| Loaded (document : option (yaml V)).
Arguments Missing {V}.
Arguments Unreadable {V}.
Arguments Loaded {V} document.

Section Config.
Context {V : Type}.

(** [base[key]] where [key in base]. *)
Fixpoint item (key : text) (d : list (text * yaml V)) : option (yaml V) :=
  match d with
  | [] => None
  | (k, v) :: d => if decide (k = key) then Some v else item key d
  end.

(** [base[key] = value]: a key that is present keeps its place, a new key
    goes to the end. *)
Fixpoint set_item (key : text) (value : yaml V) (d : list (text * yaml V))
  : list (text * yaml V) :=
  match d with
  | [] => [(key, value)]
  | (k, v) :: d =>
      if decide (k = key) then (key, value) :: d
      else (k, v) :: set_item key value d
  end.

(** What one turn of the loop of [update_config] leaves under its key, where
    [old] is what [base] held there: when both are dictionaries the old one,
    updated in place by the recursive call (written out here as the loop over
    the items of [value]), and [value] in every other case. *)
Fixpoint updated (value : yaml V) (old : option (yaml V)) {struct value}
  : yaml V :=
  match old, value with
  | Some (Mapping base), Mapping update =>
      Mapping (foldl (λ base kv,
                        set_item kv.1 (updated kv.2 (item kv.1 base)) base)
                     base update)
  | _, _ => value
  end.

(** [update_config]: the dictionary [base] after the loop over
    [update.items()]. *)
Definition update_config (base update : list (text * yaml V))
  : list (text * yaml V) :=
  foldl (λ base kv, set_item kv.1 (updated kv.2 (item kv.1 base)) base)
        base update.

(** [load_config], given the dictionary [default_config]. A loaded document
    that is empty or false is skipped; one that is neither that nor a
    dictionary has no [items], and the exception is caught like those of
    [open] and [yaml.safe_load]. *)
Definition load_config (default_config : list (text * yaml V))
    (file : config_file V) : list (text * yaml V) :=
  match file with
  | Loaded (Some (Mapping loaded_config)) =>
      if truthy loaded_config then update_config default_config loaded_config
      else default_config
  | _ => default_config
  end.

(** A dictionary has every key once, at every depth. *)
Fixpoint well_formed (value : yaml V) : bool :=
  match value with
  | Other _ => true
  | Mapping entries =>
      bool_decide (NoDup entries.*1)
      && forallb (λ kv, well_formed kv.2) entries
  end.
End Config.

(** The dictionary [default_config] of [load_config], its values that are
    not dictionaries as Python literals. *)
Definition default_config_dict : list (text * yaml string) :=
  [ (txt "remove_invalid", Other "True"%string);
    (txt "domain_convergence", Other "True"%string);
    (txt "format_standardize", Other "True"%string);
    (txt "supported_modifiers",
       Other "['domain', 'third-party', 'important', 'client', 'dnstype', 'dnsrewrite', 'rewrite']"%string);
    (txt "input",
       Mapping [ (txt "source_dir", Other "'sources'"%string);
                 (txt "file_patterns", Other "['*.txt', '*.filters']"%string) ]);
    (txt "output",
       Mapping [ (txt "optimized_file", Other "'output/optimized.txt'"%string);
                 (txt "statistics_file", Other "'output/stats.json'"%string);
                 (txt "removed_rules_log", Other "'output/removed.log'"%string) ]) ].

(** A configuration file that turns one flag off and moves the source
    directory. *)
Definition sample_config_file : list (text * yaml string) :=
  [ (txt "domain_convergence", Other "False"%string);
    (txt "input", Mapping [ (txt "source_dir", Other "'lists'"%string) ]);
    (txt "verbose", Other "True"%string) ].


(* ===================================================================== *)
(** ** Vocabulary of the statements *)
(* ===================================================================== *)

(** The anchored blocking rule of a host, [||host^]. *)
Definition domain_rule (host : text) : text := txt "||" ++ host ++ txt "^".

(** [h] is a proper sub-domain of [o]: it ends with ["." + o]. *)
Definition subdomain_of (h o : text) : Prop := (txt "." ++ o) `suffix_of` h.

(** The dictionary that maps each host of [ks] to its anchored rule. *)
Definition rule_dict (ks : list text) : Dict.t :=
  (λ k, (k, domain_rule k)) <$> ks.

(** The hosts of the anchored rules of [rules], in input order. *)
Definition anchored_hosts (rules : list text) : list text :=
  domain_of <$> filter (λ r, is_domain_rule r) rules.

(** The elements of [l] at the positions that [keep] accepts, given the part
    of the list that comes before the position. *)
Definition select_by_prefix (keep : list text → text → bool) (l : list text)
  : list text :=
  omap id (imap (λ i x, if keep (take i l) x then Some x else None) l).

(** The first occurrence of every value, in order of appearance. *)
Definition first_occurrences (l : list text) : list text :=
  select_by_prefix (λ before x, bool_decide (x ∉ before)) l.

(** Every occurrence that has an equal one before it, in order of appearance. *)
Definition later_occurrences (l : list text) : list text :=
  select_by_prefix (λ before x, bool_decide (x ∈ before)) l.

(** How many times [x] occurs in [l]. *)
Definition occurrences (x : text) (l : list text) : nat :=
  length (filter (λ y, y = x) l).

(** The block that [save_removed_rules] appends at clock reading [t]; nothing
    is appended for an empty batch. *)
Definition log_entries (reason : string) (t : nat) (removed : list text)
  : list removal_record :=
  if truthy removed then [RemovalRecord reason t (length removed) removed] else [].

(** The world after a batch of removals was logged (or not, when empty). *)
Definition after_removal (reason : string) (removed : list text) (w : world)
  : world :=
  if truthy removed
  then with_log_entry (RemovalRecord reason (ticks w) (length removed) removed)
                      (with_tick w)
  else w.

(** A host-like token: characters of [[a-zA-Z0-9.-]], at least one, then a
    dot, then two letters or more. *)
Definition host_like (d : text) : Prop :=
  ∃ a b, d = a ++ "."%char :: b
         ∧ a ≠ [] ∧ Forall (λ c, Re.is_host_char c = true) a
         ∧ 2 ≤ length b ∧ Forall (λ c, Re.is_letter c = true) b.

(** White space in [s] is made of single [" "] characters, each between two
    other characters or at the end; [after_char] tells that the character
    before [s] is not white space. *)
Fixpoint well_spaced (after_char : bool) (s : text) : bool :=
  match s with
  | [] => true
  | c :: t =>
      if Str.is_space c
      then after_char && bool_decide (c = " "%char) && well_spaced false t
      else well_spaced true t
  end.

(** The last character of [s], if any, is not white space. *)
Definition ends_with_char (s : text) : bool :=
  match rev s with
  | [] => true
  | c :: _ => negb (Str.is_space c)
  end.

(** [s] has neither leading nor trailing white space, and inside only single
    spaces. *)
Definition tidy (s : text) : Prop :=
  well_spaced false s = true ∧ ends_with_char s = true.

(** A token of the option list: tidy, not empty, without a comma. *)
Definition token (t : text) : Prop := tidy t ∧ t ≠ [] ∧ ","%char ∉ t.

(** [self.stats] holds the counters that the stages store and the start time
    that [__init__] stores. *)
Definition has_counters (st : gmap string value) (o v d c : Z) (t0 : nat)
  : Prop :=
  st !! "original_count"%string = Some (VInt o)
  ∧ st !! "valid_count"%string = Some (VInt v)
  ∧ st !! "duplicate_count"%string = Some (VInt d)
  ∧ st !! "converged_count"%string = Some (VInt c)
  ∧ st !! "start_time"%string = Some (VTime t0).

(** The value [save_statistics] stores under [reduction_percent]. *)
Definition reduction_of (original final : Z) : value :=
  if (0 <? original)%Z
  then VRatio (Qmake ((original - final) * 100) (Z.to_pos original))
  else VInt 0.

(** [self.stats] after [save_statistics] ran at clock reading [t]. *)
Definition final_stats (st : gmap string value) (o final : Z) (t0 t : nat)
  : gmap string value :=
  <["reduction_percent" := reduction_of o final]>
    (<["duration_seconds" := VSeconds t0 t]>
    (<["end_time" := VTime t]>
    (<["final_count" := VInt final]> st))).

(** The nine fields of the statistics document. *)
Definition statistics_fields : list string :=
  ["original_count"; "valid_count"; "duplicate_count"; "converged_count";
   "final_count"; "start_time"; "end_time"; "duration_seconds";
   "reduction_percent"]%string.

(** A batch of the removal log as [save_removed_rules] is asked to write it
    by the reduction stages: it is not empty, its count is the number of its
    rules and its reason is one of [reasons]. *)
Definition batch_ok (reasons : list string) (r : removal_record) : Prop :=
  rr_rules r ≠ [] ∧ rr_count r = length (rr_rules r) ∧ rr_reason r ∈ reasons.



(** A text of white space only. *)
Definition blank (s : text) : Prop := Forall (λ c, Str.is_space c = true) s.

(** An option as it is written in a rule: a name, or a name, [=] and a
    value. *)
Definition option_text (o : text * option text) : text :=
  match o.2 with
  | None => o.1
  | Some value => o.1 ++ "="%char :: value
  end.

(** What stands between two commas of an option list: an option with white
    space around it, or white space only. *)
Definition piece_text (p : text * option (text * option text) * text) : text :=
  p.1.1 ++ from_option option_text [] p.1.2 ++ p.2.

(** A written option is not empty, begins and ends with a character that is
    not white space and holds no comma; its name holds no [=]. *)
Definition proper_option (o : text * option text) : Prop :=
  ("="%char ∉ o.1)
  ∧ (","%char ∉ option_text o)
  ∧ option_text o ≠ []
  ∧ (∀ c, head (option_text o) = Some c → Str.is_space c = false)
  ∧ ends_with_char (option_text o) = true.

Definition proper_piece (p : text * option (text * option text) * text) : Prop :=
  blank p.1.1 ∧ blank p.2 ∧ from_option proper_option True p.1.2.

(** The options of [" domain=good.com, ,evilmod,important  "], piece by
    piece. *)
Definition sample_pieces : list (text * option (text * option text) * text) :=
  [ (txt " ", Some (txt "domain", Some (txt "good.com")), []);
    (txt " ", None, []);
    ([], Some (txt "evilmod", None), []);
    ([], Some (txt "important", None), txt "  ") ].

(** The rules that [domain_convergence] hands to [save_removed_rules]. *)
Definition removed_subdomains (cfg : config) (rules : list text) : list text :=
  if domain_convergence_on cfg
  then domain_rule <$> elements (hosts_to_remove rules)
  else [].

(** The rules that [domain_convergence] returns. *)
Definition converged (cfg : config) (rules : list text) : list text :=
  if domain_convergence_on cfg
  then filter (λ r, ¬ is_domain_rule r) rules
       ++ (domain_rule <$> filter (λ h, h ∉ hosts_to_remove rules)
                                  (first_occurrences (anchored_hosts rules)))
  else rules.

(** The lines of a text that ends every line with a newline. *)
Definition unlines (lines : list text) : text :=
  concat ((λ line, line ++ nl) <$> lines).

Definition newline : ascii := "010"%char.

(** A line of the header block: it starts with [!] and holds no newline. *)
Definition comment_line (line : text) : Prop :=
  txt "!" `prefix_of` line ∧ newline ∉ line.

(** The lines of the f-string [header]. *)
Definition header_lines
    (version last_modified original optimized reduction : text) : list text :=
  [ txt "! Title: Optimized AdGuard Home Filters";
    txt "! Description: Optimized filter list for AdGuard Home";
    txt "! Version: " ++ version;
    txt "! Last Modified: " ++ last_modified;
    txt "! Optimizer: GitHub Actions Automation";
    txt "! Original Rules: " ++ original;
    txt "! Optimized Rules: " ++ optimized;
    txt "! Reduction: " ++ reduction ++ txt "%";
    txt "! " ].

(** The shape the optimized file is said to have: [n] comment lines, then the
    rules, one per line, in lexicographic order. *)
Definition header_then_sorted_rules (n : nat) (rules : list text) (file : text)
  : Prop :=
  ∃ head body,
    file = unlines (head ++ body)
    ∧ length head = n ∧ Forall comment_line head
    ∧ body ≡ₚ rules ∧ Sorted (in_order Str.ltb) body.

(** The renderings of the runtime never hold a newline. *)
Definition runtime_ok (rt : runtime) : Prop :=
  (∀ t, newline ∉ strftime rt t) ∧ (∀ t, newline ∉ isoformat rt t)
  ∧ (∀ q, newline ∉ format_2f rt q).

(** A runtime, a set of rules and an optimizer whose statistics are complete,
    for the examples. *)
Definition sample_rules : list text := [txt "||b.com^"; txt "||a.com^"].

Definition sample_world : world :=
  World (<["reduction_percent" := VInt 0]> (<["original_count" := VInt 2]> ∅))
        0 None [] None None.

(** An optimizer after four lines were loaded and three rules counted as
    valid, and those four lines. *)
Definition counted_lines : list text :=
  [txt "||a.com^"; txt "||a.com^"; txt "! c"; txt "||x.a.com^"].

Definition counted_world : world :=
  World (<["start_time" := VTime 0]>
          (<["converged_count" := VInt 0]>
          (<["duplicate_count" := VInt 0]>
          (<["valid_count" := VInt 3]>
          (<["original_count" := VInt 4]> ∅)))))
        1 None [] None None.

(** A source directory with one file that holds one rule. *)
Definition one_rule_world : world :=
  World ∅ 0 (Some [Some [txt "||a.com^"]]) [] None None.

Definition sample_runtime : runtime :=
  Runtime (λ _, txt "20240101000000") (λ _, txt "2024-01-01T00:00:00")
          (λ _, txt "0.00").

(* ===================================================================== *)
(** ** Facts about the string primitives *)
(* ===================================================================== *)

Section StrFacts.
Import Str.

Lemma startswith_prefix p s : startswith p s = true ↔ p `prefix_of` s.
Proof.
  revert s; induction p as [|a p IH]; intros s; simpl.
  - split; [intros _; apply prefix_nil | done].
  - destruct s as [|b s].
    + split; [done | intros [k Hk]; discriminate].
    + destruct (decide (a = b)) as [->|Hne].
      * rewrite IH. split; [apply prefix_cons | apply prefix_cons_inv_2].
      * split; [done | intros H; apply prefix_cons_inv_1 in H; done].
Qed.

Lemma suffix_rev_prefix (p s : text) : p `suffix_of` s ↔ rev p `prefix_of` rev s.
Proof.
  split.
  - intros [k ->]. rewrite rev_app_distr. by exists (rev k).
  - intros [k Hk]. exists (rev k).
    rewrite <- (rev_involutive s), Hk, rev_app_distr.
    by rewrite rev_involutive.
Qed.

Lemma endswith_suffix p s : endswith p s = true ↔ p `suffix_of` s.
Proof. unfold endswith. by rewrite startswith_prefix, suffix_rev_prefix. Qed.

Lemma startswith_app p s : startswith p (p ++ s) = true.
Proof. apply startswith_prefix. by exists s. Qed.

Lemma endswith_app p s : endswith p (s ++ p) = true.
Proof. apply endswith_suffix. by exists s. Qed.

Lemma startswith_false p s : ¬ p `prefix_of` s → startswith p s = false.
Proof.
  intros H. destruct (startswith p s) eqn:E; [|done].
  by apply startswith_prefix in E.
Qed.
End StrFacts.

(* ===================================================================== *)
(** ** [convert_to_pipe_format] *)
(* ===================================================================== *)

(** The first two tests of [convert_to_pipe_format] return their argument. *)
Lemma convert_keeps_pipe_form (s : text) :
  (txt "||" `prefix_of` s ∨ txt "@@||" `prefix_of` s) → txt "^" `suffix_of` s →
  convert_to_pipe_format s = s.
Proof.
  intros Hp Hs. unfold convert_to_pipe_format.
  apply endswith_suffix in Hs. rewrite Hs, !andb_true_r.
  destruct Hp as [Hp|Hp]; apply startswith_prefix in Hp; rewrite Hp; [done|].
  by destruct (Str.startswith (txt "||") s).
Qed.

(** The result is the argument itself or a freshly built [||d^] or [@@||d^]. *)
Lemma convert_cases (rule : text) :
  convert_to_pipe_format rule = rule
  ∨ ∃ d, Re.re_search Re.plain_domain rule = Some d
         ∧ (convert_to_pipe_format rule = txt "||" ++ d ++ txt "^"
            ∨ convert_to_pipe_format rule = txt "@@||" ++ d ++ txt "^").
Proof.
  unfold convert_to_pipe_format.
  destruct (Str.startswith (txt "||") rule && Str.endswith (txt "^") rule);
    [by left|].
  destruct (Str.startswith (txt "@@||") rule && Str.endswith (txt "^") rule);
    [by left|].
  destruct (Re.re_match Re.anchored_host rule); [by left|].
  destruct (Re.re_search Re.plain_domain rule) as [d|]; [|by left].
  right. exists d. split; [done|].
  destruct (Str.startswith (txt "@@") rule); [by right | by left].
Qed.

(** C5. Pattern canonicalization is idempotent: for every string [p],
    canonicalizing the canonical form of [p] gives the canonical form of [p]
    again. *)
Theorem convert_to_pipe_format_idempotent (p : text) :
  convert_to_pipe_format (convert_to_pipe_format p) = convert_to_pipe_format p.
Proof.
  destruct (convert_cases p) as [H|(d & _ & [->| ->])]; [by rewrite !H| |].
  - apply convert_keeps_pipe_form.
    + left. by exists (d ++ txt "^").
    + by exists (txt "||" ++ d).
  - apply convert_keeps_pipe_form.
    + right. by exists (d ++ txt "^").
    + exists (txt "@@||" ++ d). by rewrite <- !app_assoc.
Qed.

(** C10. Every string that starts with [||] and ends with [^], or starts with
    [@@||] and ends with [^], is returned unchanged by the canonicalization,
    whatever stands in between (a [/], a [^], a [$], no host at all). *)
Theorem convert_to_pipe_format_fixes_pipe_form (s : text) :
  (txt "||" `prefix_of` s ∧ txt "^" `suffix_of` s)
  ∨ (txt "@@||" `prefix_of` s ∧ txt "^" `suffix_of` s) →
  convert_to_pipe_format s = s.
Proof. intros [[??]|[??]]; apply convert_keeps_pipe_form; auto. Qed.

(** An instance of C10 whose interior holds a slash, a caret and a dollar and
    no host-like token. *)
Lemma convert_to_pipe_format_fixes_pipe_form_witness :
  ((txt "||" `prefix_of` txt "||/^$^" ∧ txt "^" `suffix_of` txt "||/^$^")
   ∨ (txt "@@||" `prefix_of` txt "||/^$^" ∧ txt "^" `suffix_of` txt "||/^$^"))
  ∧ convert_to_pipe_format (txt "||/^$^") = txt "||/^$^".
Proof.
  assert (H : (txt "||" `prefix_of` txt "||/^$^" ∧ txt "^" `suffix_of` txt "||/^$^")
   ∨ (txt "@@||" `prefix_of` txt "||/^$^" ∧ txt "^" `suffix_of` txt "||/^$^")).
  { left. split; [by exists (txt "/^$^") | by exists (txt "||/^$")]. }
  split; [exact H | exact (convert_to_pipe_format_fixes_pipe_form _ H)].
Defined.

(* ===================================================================== *)
(** ** [deduplicate_rules] *)
(* ===================================================================== *)

Section Dedup.
Implicit Types (l rules : list text) (x r : text).

Lemma select_by_prefix_snoc keep l x :
  select_by_prefix keep (l ++ [x])
  = select_by_prefix keep l ++ (if keep l x then [x] else []).
Proof.
  unfold select_by_prefix. rewrite imap_app, omap_app. f_equal.
  - f_equal. apply imap_ext. intros i y Hi. simpl.
    rewrite take_app_le; [done|].
    apply lookup_lt_Some in Hi. lia.
  - simpl. rewrite Nat.add_0_r, take_app_length.
    by destruct (keep l x).
Qed.

Lemma first_occurrences_snoc l x :
  first_occurrences (l ++ [x])
  = first_occurrences l ++ (if decide (x ∈ l) then [] else [x]).
Proof.
  unfold first_occurrences. rewrite select_by_prefix_snoc.
  rewrite bool_decide_decide. by destruct (decide (x ∈ l)); case_decide.
Qed.

Lemma later_occurrences_snoc l x :
  later_occurrences (l ++ [x])
  = later_occurrences l ++ (if decide (x ∈ l) then [x] else []).
Proof.
  unfold later_occurrences. rewrite select_by_prefix_snoc.
  rewrite bool_decide_decide. by destruct (decide (x ∈ l)).
Qed.

(** The state of the loop after any prefix of the input. *)
Lemma dedup_loop l :
  foldl dedup_step (∅, [], []) l
  = (list_to_set l, first_occurrences l, later_occurrences l).
Proof.
  induction l as [|x l IH] using rev_ind; [done|].
  rewrite foldl_app, IH. simpl.
  rewrite first_occurrences_snoc, later_occurrences_snoc.
  rewrite list_to_set_app_L. simpl.
  destruct (decide (x ∈ l)) as [Hin|Hin]; rewrite !app_nil_r.
  - rewrite decide_False by set_solver. do 2 f_equal. set_solver.
  - rewrite decide_True by set_solver. do 2 f_equal. set_solver.
Qed.

Lemma dedup_scan_spec rules :
  dedup_scan rules = (first_occurrences rules, later_occurrences rules).
Proof. unfold dedup_scan. by rewrite dedup_loop. Qed.

Lemma occurrences_snoc r l x :
  occurrences r (l ++ [x]) = occurrences r l + (if decide (x = r) then 1 else 0).
Proof.
  unfold occurrences. rewrite filter_app, length_app. f_equal.
  rewrite filter_cons, filter_nil. by destruct (decide (x = r)).
Qed.

Lemma occurrences_nil r : occurrences r [] = 0.
Proof. done. Qed.

Lemma occurrences_singleton r x :
  occurrences r [x] = if decide (x = r) then 1 else 0.
Proof. unfold occurrences. rewrite filter_cons. by case_decide. Qed.

Lemma occurrences_app r l1 l2 :
  occurrences r (l1 ++ l2) = occurrences r l1 + occurrences r l2.
Proof. unfold occurrences. by rewrite filter_app, length_app. Qed.

Lemma occurrences_pos r l : r ∈ l ↔ 0 < occurrences r l.
Proof.
  unfold occurrences. split.
  - intros H. assert (Hf : r ∈ filter (λ y, y = r) l)
      by (by apply list_elem_of_filter).
    destruct (filter (λ y, y = r) l); [by apply elem_of_nil in Hf | simpl; lia].
  - intros H. destruct (filter (λ y, y = r) l) as [|y k] eqn:E; [simpl in H; lia|].
    assert (Hy : y ∈ filter (λ y, y = r) l) by (rewrite E; left).
    apply list_elem_of_filter in Hy as [-> ?]. done.
Qed.

Lemma occurrences_zero r l : r ∉ l ↔ occurrences r l = 0.
Proof. rewrite occurrences_pos. lia. Qed.

Lemma occurrences_first r l :
  occurrences r (first_occurrences l) = if decide (r ∈ l) then 1 else 0.
Proof.
  induction l as [|x l IH] using rev_ind; [done|].
  rewrite first_occurrences_snoc, occurrences_app, IH.
  destruct (decide (x ∈ l)) as [Hx|Hx];
    rewrite ?occurrences_nil, ?occurrences_singleton;
    destruct (decide (r ∈ l)) as [Hin|Hin].
  - rewrite decide_True by set_solver. lia.
  - rewrite decide_False by set_solver. lia.
  - rewrite decide_False by (intros ->; done).
    rewrite decide_True by set_solver. lia.
  - destruct (decide (x = r)) as [->|Hne].
    + rewrite decide_True by set_solver. lia.
    + rewrite decide_False by set_solver. lia.
Qed.

Lemma occurrences_split r l :
  occurrences r l
  = occurrences r (first_occurrences l) + occurrences r (later_occurrences l).
Proof.
  induction l as [|x l IH] using rev_ind; [done|].
  rewrite first_occurrences_snoc, later_occurrences_snoc, !occurrences_app, IH.
  case_decide; rewrite ?occurrences_nil, ?occurrences_singleton; lia.
Qed.

Lemma first_occurrences_elem r l : r ∈ first_occurrences l ↔ r ∈ l.
Proof.
  rewrite (occurrences_pos r l), occurrences_pos, occurrences_first.
  case_decide as H; [apply occurrences_pos in H|apply occurrences_zero in H]; lia.
Qed.

Lemma first_occurrences_NoDup l : NoDup (first_occurrences l).
Proof.
  induction l as [|x l IH] using rev_ind; [constructor|].
  rewrite first_occurrences_snoc. case_decide as Hin.
  - by rewrite app_nil_r.
  - apply NoDup_app. split_and!; [done| |apply NoDup_singleton].
    intros y Hy Hx. apply list_elem_of_singleton in Hx as ->.
    by apply Hin, first_occurrences_elem.
Qed.

Lemma first_occurrences_sublist l : first_occurrences l `sublist_of` l.
Proof.
  induction l as [|x l IH] using rev_ind; [done|].
  rewrite first_occurrences_snoc. apply sublist_app; [done|].
  case_decide; [apply sublist_nil_l | done].
Qed.

Lemma later_occurrences_sublist l : later_occurrences l `sublist_of` l.
Proof.
  induction l as [|x l IH] using rev_ind; [done|].
  rewrite later_occurrences_snoc. apply sublist_app; [done|].
  case_decide; [done | apply sublist_nil_l].
Qed.

(** Every occurrence goes to exactly one of the two lists. *)
Lemma dedup_Permutation l : l ≡ₚ first_occurrences l ++ later_occurrences l.
Proof.
  induction l as [|x l IH] using rev_ind; [done|].
  rewrite first_occurrences_snoc, later_occurrences_snoc.
  case_decide; rewrite ?app_nil_r.
  - by rewrite app_assoc, <- IH.
  - rewrite <- app_assoc, (Permutation_app_comm [x]), app_assoc, <- IH. done.
Qed.
End Dedup.

(* ===================================================================== *)
(** ** Anchored rules and the dictionary [domain_rules] *)
(* ===================================================================== *)

Section DomainRules.
Implicit Types (h o k : text) (r : text) (d : Dict.t).

Lemma is_domain_rule_domain_rule h : is_domain_rule (domain_rule h) = true.
Proof.
  unfold is_domain_rule, domain_rule.
  rewrite startswith_app, app_assoc, endswith_app. done.
Qed.

Lemma domain_of_domain_rule h : domain_of (domain_rule h) = h.
Proof.
  unfold domain_of, domain_rule, Str.slice_from_to_last.
  rewrite app_assoc, length_app. simpl length. rewrite Nat.add_sub.
  change (S (S (length h))) with (length (txt "||" ++ h)).
  by rewrite take_app_length.
Qed.

(** A rule that passes the test of the partition loop is [||host^] for its
    own host. *)
Lemma domain_rule_domain_of r :
  is_domain_rule r = true → r = domain_rule (domain_of r).
Proof.
  unfold is_domain_rule. intros [Hp Hs]%andb_true_iff.
  apply startswith_prefix in Hp as [t Ht].
  apply endswith_suffix in Hs as [u Hu].
  assert (∃ m, r = domain_rule m) as [m ->].
  { subst r. unfold domain_rule, txt in *. simpl in *.
    destruct u as [|a [|b u]]; simplify_eq/=. by exists u. }
  by rewrite domain_of_domain_rule.
Qed.

Lemma domain_rule_inj h o : domain_rule h = domain_rule o → h = o.
Proof. intros H. by rewrite <- (domain_of_domain_rule h), H, domain_of_domain_rule. Qed.

Lemma dict_set_present k v d :
  Dict.get k d = Some v → Dict.set k v d = d.
Proof.
  induction d as [|[k' v'] d IH]; simpl; [done|].
  case_decide as E; [by intros [= ->]; subst | intros Hg; by rewrite IH].
Qed.

Lemma dict_set_fresh k v d :
  Dict.get k d = None → Dict.set k v d = d ++ [(k, v)].
Proof.
  induction d as [|[k' v'] d IH]; simpl; [done|].
  case_decide; [done | intros Hg; by rewrite IH].
Qed.

Lemma rule_dict_keys ks : Dict.keys (rule_dict ks) = ks.
Proof.
  unfold Dict.keys, rule_dict.
  induction ks as [|k ks IH]; simpl; [done | by f_equal].
Qed.

Lemma rule_dict_get ks k :
  Dict.get k (rule_dict ks) = if decide (k ∈ ks) then Some (domain_rule k) else None.
Proof.
  induction ks as [|k' ks IH]; simpl; [done|].
  - destruct (decide (k = k')) as [->|Hne].
    + by rewrite decide_True by left.
    + rewrite IH. destruct (decide (k ∈ ks)).
      * by rewrite decide_True by (by right).
      * rewrite decide_False; [done|]. by intros [?|?]%elem_of_cons.
Qed.

(** The partition loop after any prefix of the input. *)
Lemma partition_rules_spec rules :
  partition_rules rules
  = (rule_dict (first_occurrences (anchored_hosts rules)),
     filter (λ r, ¬ is_domain_rule r) rules).
Proof.
  unfold partition_rules, anchored_hosts.
  induction rules as [|r rules IH] using rev_ind; [done|].
  rewrite foldl_app, IH, !filter_app, fmap_app. simpl.
  rewrite !filter_cons, !filter_nil.
  destruct (is_domain_rule r) eqn:E; simpl; rewrite !app_nil_r; [|done].
  f_equal. rewrite first_occurrences_snoc.
  rewrite (domain_rule_domain_of r E) at 2.
  case_decide as Hin.
  - rewrite app_nil_r. apply dict_set_present.
    rewrite rule_dict_get, decide_True; [done|].
    by apply first_occurrences_elem.
  - unfold rule_dict at 2. rewrite fmap_app. apply dict_set_fresh.
    rewrite rule_dict_get, decide_False; [done|].
    by rewrite first_occurrences_elem.
Qed.

Lemma anchored_hosts_elem rules h :
  h ∈ anchored_hosts rules ↔ domain_rule h ∈ rules.
Proof.
  unfold anchored_hosts. rewrite list_elem_of_fmap. split.
  - intros (r & -> & [Hr Hin]%list_elem_of_filter).
    apply Is_true_true in Hr. by rewrite <- domain_rule_domain_of.
  - intros Hin. exists (domain_rule h). rewrite domain_of_domain_rule.
    split; [done|]. apply list_elem_of_filter. split; [|done].
    by rewrite is_domain_rule_domain_rule.
Qed.

(** Looking up keys that are all present returns their rules and leaves the
    world alone. *)
Lemma lookup_all_rule_dict ks sel w :
  sel ⊆ ks → lookup_all (rule_dict ks) sel w = (Returns (domain_rule <$> sel), w).
Proof.
  induction sel as [|k sel IH]; intros Hsub; simpl; [done|].
  rewrite rule_dict_get, decide_True by (apply Hsub; left).
  unfold mbind, M_bind. rewrite IH; [done|].
  intros x Hx. apply Hsub. by right.
Qed.
End DomainRules.

(* ===================================================================== *)
(** ** The stable sort *)
(* ===================================================================== *)

Section StableSortFacts.
Context {A : Type} (before : A → A → bool).

Lemma insert_sorted_Permutation x l : insert_sorted before x l ≡ₚ x :: l.
Proof.
  induction l as [|y l IH]; simpl; [done|].
  destruct (before y x); [|done]. by rewrite IH, Permutation_swap.
Qed.

Lemma stable_sort_Permutation l : stable_sort before l ≡ₚ l.
Proof.
  induction l as [|x l IH]; simpl; [done|].
  by rewrite insert_sorted_Permutation, IH.
Qed.

Hypothesis before_asym : ∀ x y, before x y = true → before y x = false.

Lemma insert_sorted_HdRel y x l :
  in_order before y x → HdRel (in_order before) y l →
  HdRel (in_order before) y (insert_sorted before x l).
Proof.
  intros Hyx Hl. destruct l as [|z l]; simpl; [by constructor|].
  destruct (before z x); constructor; [|done]. by inversion Hl.
Qed.

Lemma insert_sorted_Sorted x l :
  Sorted (in_order before) l → Sorted (in_order before) (insert_sorted before x l).
Proof.
  induction 1 as [|y l Hs IH Hhd]; simpl; [by repeat constructor|].
  destruct (before y x) eqn:E.
  - constructor; [done|]. apply insert_sorted_HdRel; [|done].
    by apply before_asym.
  - constructor; [by constructor|]. by constructor.
Qed.

Lemma stable_sort_Sorted l : Sorted (in_order before) (stable_sort before l).
Proof.
  induction l as [|x l IH]; simpl; [constructor|].
  by apply insert_sorted_Sorted.
Qed.
End StableSortFacts.

Lemma Sorted_weaken {A} (R1 R2 : relation A) l :
  (∀ x y, R1 x y → R2 x y) → Sorted R1 l → Sorted R2 l.
Proof.
  intros HR. induction 1 as [|x l Hs IH Hhd]; constructor; [done|].
  destruct Hhd; constructor; auto.
Qed.

Lemma sorted_by_len_desc_Permutation l : sorted_by_len_desc l ≡ₚ l.
Proof. apply stable_sort_Permutation. Qed.

(** In [sorted_domains] nothing is followed by a longer host. *)
Lemma sorted_by_len_desc_sorted l :
  StronglySorted (λ a b : text, length b ≤ length a) (sorted_by_len_desc l).
Proof.
  apply Sorted_StronglySorted.
  { intros a b c. lia. }
  eapply Sorted_weaken; [|apply stable_sort_Sorted].
  - intros a b. unfold in_order. by intros H%Nat.ltb_ge.
  - intros x y H%Nat.ltb_lt. apply Nat.ltb_ge. lia.
Qed.

(* ===================================================================== *)
(** ** Which hosts the convergence loop marks *)
(* ===================================================================== *)

Section Marking.
Implicit Types (h o : text) (ks : list text).

Lemma subdomain_of_longer h o : subdomain_of h o → length o < length h.
Proof. intros [k ->]. rewrite !length_app. simpl. lia. Qed.

Lemma subdomain_of_trans h o o' :
  subdomain_of h o → subdomain_of o o' → subdomain_of h o'.
Proof.
  intros [k ->] [k' ->]. exists (k ++ txt "." ++ k').
  by rewrite <- !app_assoc.
Qed.

Lemma covered_by_spec h o :
  covered_by h o = true ↔ subdomain_of h o ∨ h = o.
Proof.
  unfold covered_by. rewrite orb_true_iff, endswith_suffix, bool_decide_eq_true.
  done.
Qed.

(** The loop marks the hosts that are covered by a host standing after them. *)
Lemma mark_subdomains_elem ks acc h :
  h ∈ mark_subdomains ks acc
  ↔ h ∈ acc ∨ ∃ l1 l2, ks = l1 ++ h :: l2 ∧ ∃ o, o ∈ l2 ∧ covered_by h o = true.
Proof.
  revert acc. induction ks as [|k ks IH]; intros acc; simpl.
  - split; [by left|]. intros [?|(l1 & l2 & E & _)]; [done|].
    by destruct l1.
  - assert (Htail : (∃ l1 l2, k :: ks = l1 ++ h :: l2
                       ∧ ∃ o, o ∈ l2 ∧ covered_by h o = true)
              ↔ (h = k ∧ ∃ o, o ∈ ks ∧ covered_by h o = true)
                ∨ ∃ l1 l2, ks = l1 ++ h :: l2
                    ∧ ∃ o, o ∈ l2 ∧ covered_by h o = true).
    { split.
      - intros (l1 & l2 & E & Ho). destruct l1 as [|a l1]; simplify_eq/=.
        + by left.
        + right. by exists l1, l2.
      - intros [[-> Ho]|(l1 & l2 & -> & Ho)].
        + by exists [], ks.
        + by exists (k :: l1), l2. }
    rewrite Htail.
    destruct (existsb (covered_by k) ks) eqn:E; rewrite IH.
    + apply existsb_exists in E as (o & Ho%list_elem_of_In & Hc).
      rewrite elem_of_union, elem_of_singleton. naive_solver.
    + assert (¬ ∃ o, o ∈ ks ∧ covered_by k o = true) as Hno.
      { intros (o & Ho%list_elem_of_In & Hc).
        assert (existsb (covered_by k) ks = true)
          by (apply existsb_exists; eauto).
        congruence. }
      naive_solver.
Qed.

(** On distinct hosts sorted by decreasing length, a host is marked exactly
    when some host of the list is a proper parent of it. *)
Lemma mark_subdomains_sorted ks h :
  NoDup ks → StronglySorted (λ a b : text, length b ≤ length a) ks →
  h ∈ mark_subdomains ks ∅ ↔ h ∈ ks ∧ ∃ o, o ∈ ks ∧ subdomain_of h o.
Proof.
  intros Hnd Hs. rewrite mark_subdomains_elem. split.
  - intros [?|(l1 & l2 & -> & o & Ho & Hc)]; [set_solver|].
    split; [set_solver|]. exists o. split; [set_solver|].
    apply covered_by_spec in Hc as [?| ->]; [done|].
    apply NoDup_app in Hnd as (_ & _ & Hnd).
    apply NoDup_cons in Hnd as [Hnd _]. done.
  - intros [Hin (o & Ho & Hsub)]. right.
    apply list_elem_of_split in Hin as (l1 & l2 & ->).
    exists l1, l2. split; [done|]. exists o. split.
    + apply elem_of_app in Ho as [Ho|Ho].
      * apply StronglySorted_app_1_elem_of with (x1 := o) (x2 := h) in Hs;
          [|done|by left].
        apply subdomain_of_longer in Hsub. lia.
      * apply elem_of_cons in Ho as [->|Ho]; [|done].
        apply subdomain_of_longer in Hsub. lia.
    + apply covered_by_spec. by left.
Qed.

(** Every host has a parent-or-self among the hosts that are not marked. *)
Lemma unmarked_ancestor ks (marked : gset text) :
  (∀ h, h ∈ marked ↔ h ∈ ks ∧ ∃ o, o ∈ ks ∧ subdomain_of h o) →
  ∀ h, h ∈ ks →
    ∃ o, o ∈ ks ∧ (o ∉ marked) ∧ (o = h ∨ subdomain_of h o).
Proof.
  intros Hm h. remember (length h) as n eqn:En. revert h En.
  induction n as [n IH] using lt_wf_ind. intros h -> Hin.
  destruct (decide (h ∈ marked)) as [Hh|Hh].
  - apply Hm in Hh as (_ & o & Ho & Hsub).
    destruct (IH (length o)) with (h := o) as (o' & Ho' & Hun & Hrel); auto.
    { by apply subdomain_of_longer. }
    exists o'. split_and!; [done..|]. right.
    destruct Hrel as [->|Hrel]; [done|]. by eapply subdomain_of_trans.
  - exists h. auto.
Qed.
End Marking.

(* ===================================================================== *)
(** ** Running the two reduction stages *)
(* ===================================================================== *)

Section Stages.
Implicit Types (rules : list text) (w : world).

Lemma save_removed_rules_run rules reason w :
  save_removed_rules rules reason w
  = (Returns (),
     with_log_entry (RemovalRecord reason (ticks w) (length rules) rules)
                    (with_tick w)).
Proof. done. Qed.

Lemma after_removal_log reason removed w :
  removed_log (after_removal reason removed w)
  = removed_log w ++ log_entries reason (ticks w) removed.
Proof.
  unfold after_removal, log_entries.
  destruct (truthy removed); simpl; [done | by rewrite app_nil_r].
Qed.

Lemma after_removal_stats reason removed w :
  stats (after_removal reason removed w) = stats w.
Proof. unfold after_removal. by destruct (truthy removed). Qed.

Lemma after_removal_files reason removed w :
  optimized_file (after_removal reason removed w) = optimized_file w
  ∧ statistics_file (after_removal reason removed w) = statistics_file w
  ∧ source_dir (after_removal reason removed w) = source_dir w.
Proof. unfold after_removal. by destruct (truthy removed). Qed.

Lemma deduplicate_rules_run rules w :
  deduplicate_rules rules w
  = (Returns (first_occurrences rules),
     after_removal "duplicates" (later_occurrences rules)
       (with_stats <["duplicate_count" :=
                      VInt (Z.of_nat (length (later_occurrences rules)))]> w)).
Proof.
  unfold deduplicate_rules, after_removal. rewrite dedup_scan_spec.
  by destruct (later_occurrences rules).
Qed.

Lemma hosts_to_remove_keys rules :
  hosts_to_remove rules
  = mark_subdomains
      (sorted_by_len_desc (first_occurrences (anchored_hosts rules))) ∅.
Proof.
  unfold hosts_to_remove. rewrite partition_rules_spec. simpl.
  by rewrite rule_dict_keys.
Qed.

(** A host is marked exactly when it is the host of an anchored rule of the
    input and a proper sub-domain of the host of another one. *)
Lemma hosts_to_remove_spec rules h :
  h ∈ hosts_to_remove rules
  ↔ domain_rule h ∈ rules
    ∧ ∃ o, domain_rule o ∈ rules ∧ subdomain_of h o.
Proof.
  rewrite hosts_to_remove_keys, mark_subdomains_sorted.
  - rewrite sorted_by_len_desc_Permutation, first_occurrences_elem,
      anchored_hosts_elem.
    f_equiv. f_equiv. intros o.
    by rewrite sorted_by_len_desc_Permutation, first_occurrences_elem,
      anchored_hosts_elem.
  - rewrite sorted_by_len_desc_Permutation. apply first_occurrences_NoDup.
  - apply sorted_by_len_desc_sorted.
Qed.

Lemma domain_convergence_run cfg rules w :
  domain_convergence cfg rules w
  = (Returns (converged cfg rules),
     if domain_convergence_on cfg
     then after_removal "subdomains" (removed_subdomains cfg rules)
            (with_stats <["converged_count" :=
                           VInt (Z.of_nat (size (hosts_to_remove rules)))]> w)
     else w).
Proof.
  unfold domain_convergence, converged, removed_subdomains.
  destruct (domain_convergence_on cfg); simpl; [|done].
  rewrite hosts_to_remove_keys, partition_rules_spec, rule_dict_keys.
  set (ks := first_occurrences (anchored_hosts rules)).
  set (marked := mark_subdomains (sorted_by_len_desc ks) ∅).
  unfold mbind, M_bind.
  rewrite lookup_all_rule_dict by (intros x [_ ?]%list_elem_of_filter; done).
  simpl. case_decide as Hm.
  - rewrite Hm, elements_empty. done.
  - rewrite lookup_all_rule_dict.
    + unfold after_removal.
      destruct (elements marked) as [|h hs] eqn:E; [|done].
      by apply elements_empty_inv, leibniz_equiv in E.
    + intros h Hh%elem_of_elements. unfold marked in Hh.
      apply mark_subdomains_elem in Hh as [?|(l1 & l2 & E & _)]; [set_solver|].
      rewrite <- (sorted_by_len_desc_Permutation ks), E. set_solver.
Qed.
End Stages.

(** C6. For every input sequence of rules, [deduplicate_rules] returns the
    first occurrence of each distinct string, in first-seen order, and puts
    every later occurrence, in the order met, in the list it logs under
    [duplicates]. The returned list has no repetition and the same values as
    the input; of a value that occurs [n > 1] times exactly one occurrence is
    returned and [n - 1] are in the removed list. *)
Theorem deduplicate_rules_keeps_first_occurrences (rules : list text) (w : world) :
  let kept := first_occurrences rules in
  let removed := later_occurrences rules in
  ∃ w',
    deduplicate_rules rules w = (Returns kept, w')
    ∧ removed_log w' = removed_log w ++ log_entries "duplicates" (ticks w) removed
    ∧ stats w' !! "duplicate_count"%string = Some (VInt (Z.of_nat (length removed)))
    ∧ kept `sublist_of` rules
    ∧ removed `sublist_of` rules
    ∧ NoDup kept
    ∧ (∀ r, r ∈ kept ↔ r ∈ rules)
    ∧ (∀ r, 1 < occurrences r rules →
            occurrences r kept = 1
            ∧ occurrences r removed = occurrences r rules - 1).
Proof.
  intros kept removed. eexists. split; [apply deduplicate_rules_run|].
  rewrite after_removal_log, after_removal_stats. simpl.
  split_and!.
  - done.
  - apply lookup_insert_eq.
  - apply first_occurrences_sublist.
  - apply later_occurrences_sublist.
  - apply first_occurrences_NoDup.
  - intros r. apply first_occurrences_elem.
  - intros r Hn. pose proof (occurrences_split r rules) as Hsplit.
    pose proof (occurrences_first r rules) as Hfirst.
    rewrite decide_True in Hfirst by (apply occurrences_pos; lia).
    subst kept removed. lia.
Qed.

(* ===================================================================== *)
(** ** [domain_convergence] *)
(* ===================================================================== *)

Section Convergence.
Implicit Types (rules : list text) (h o r : text).

Lemma removed_subdomains_elem cfg rules r :
  r ∈ removed_subdomains cfg rules
  ↔ domain_convergence_on cfg = true
    ∧ ∃ h, r = domain_rule h ∧ h ∈ hosts_to_remove rules.
Proof.
  unfold removed_subdomains. destruct (domain_convergence_on cfg).
  - rewrite list_elem_of_fmap. setoid_rewrite elem_of_elements. naive_solver.
  - split; [by intros ?%elem_of_nil | by intros [? _]].
Qed.

Lemma converged_elem cfg rules r :
  r ∈ converged cfg rules
  ↔ r ∈ rules
    ∧ (domain_convergence_on cfg = true → is_domain_rule r = true →
       domain_of r ∉ hosts_to_remove rules).
Proof.
  unfold converged. destruct (domain_convergence_on cfg); [|naive_solver].
  rewrite elem_of_app, list_elem_of_filter, list_elem_of_fmap. split.
  - intros [[Hr Hin]|(h & -> & [Hh Hin]%list_elem_of_filter)].
    + split; [done|]. intros _ E. by rewrite E in Hr.
    + apply first_occurrences_elem, anchored_hosts_elem in Hin.
      split; [done|]. intros _ _. by rewrite domain_of_domain_rule.
  - intros [Hin Hkeep]. destruct (is_domain_rule r) eqn:E.
    + right. exists (domain_of r). split; [by apply domain_rule_domain_of|].
      apply list_elem_of_filter. split; [by apply Hkeep|].
      apply first_occurrences_elem, anchored_hosts_elem.
      by rewrite <- domain_rule_domain_of.
    + left. split; [|done]. by intros ?.
Qed.

(** The rules that are not anchored come out as they went in. *)
Lemma converged_other_rules cfg rules :
  filter (λ r, ¬ is_domain_rule r) (converged cfg rules)
  = filter (λ r, ¬ is_domain_rule r) rules.
Proof.
  unfold converged. destruct (domain_convergence_on cfg); [|done].
  rewrite filter_app, list_filter_filter.
  rewrite (list_filter_iff _ (λ r, ¬ is_domain_rule r)) by naive_solver.
  rewrite <- (app_nil_r (filter _ rules)) at 2. f_equal.
  induction (filter _ (first_occurrences _)) as [|h hs IH]; [done|].
  rewrite fmap_cons, filter_cons, decide_False; [done|].
  rewrite is_domain_rule_domain_rule. naive_solver.
Qed.

(** A marked host has a parent that is not marked. *)
Lemma marked_host_has_surviving_parent rules h :
  h ∈ hosts_to_remove rules →
  ∃ o, o ≠ h ∧ subdomain_of h o ∧ domain_rule o ∈ rules
       ∧ o ∉ hosts_to_remove rules.
Proof.
  intros Hh.
  destruct (unmarked_ancestor (anchored_hosts rules) (hosts_to_remove rules))
    with (h := h) as (o & Ho & Hun & Hrel).
  - intros k. rewrite hosts_to_remove_spec, anchored_hosts_elem.
    by setoid_rewrite anchored_hosts_elem.
  - apply anchored_hosts_elem. by apply hosts_to_remove_spec in Hh as [? _].
  - destruct Hrel as [->|Hrel]; [done|].
    exists o. split_and!; [by intros ->|done| |done].
    by apply anchored_hosts_elem.
Qed.
End Convergence.

(** C3. For every input sequence of rules, after domain convergence every
    removed rule is an anchored rule of the input whose host [h] is a proper
    sub-domain (it ends with ["." + o]) of another host [o <> h] whose rule
    is in the output and is itself not removed; a rule whose host is dominated
    by no other surviving host is not removed; and the rules that are not
    anchored pass through unchanged and in order. The removed rules are the
    batch logged under [subdomains]. *)
Theorem domain_convergence_removes_only_dominated
    (cfg : config) (rules : list text) (w : world) :
  ∃ final removed w',
    domain_convergence cfg rules w = (Returns final, w')
    ∧ removed_log w' = removed_log w ++ log_entries "subdomains" (ticks w) removed
    ∧ (∀ r, r ∈ removed →
         r ∈ rules ∧ is_domain_rule r = true ∧ (r ∉ final)
         ∧ ∃ o, o ≠ domain_of r ∧ subdomain_of (domain_of r) o
                ∧ domain_rule o ∈ final ∧ domain_rule o ∉ removed)
    ∧ (∀ r, r ∈ rules → is_domain_rule r = true →
         (∀ o, o ≠ domain_of r → domain_rule o ∈ final →
               ¬ subdomain_of (domain_of r) o) →
         r ∈ final ∧ r ∉ removed)
    ∧ filter (λ r, ¬ is_domain_rule r) final
      = filter (λ r, ¬ is_domain_rule r) rules
    ∧ (∀ r, r ∈ final → r ∈ rules).
Proof.
  exists (converged cfg rules), (removed_subdomains cfg rules). eexists.
  split; [apply domain_convergence_run|].
  assert (Hsurv : ∀ h, h ∈ hosts_to_remove rules →
            domain_convergence_on cfg = true →
            ∃ o, o ≠ h ∧ subdomain_of h o
                 ∧ domain_rule o ∈ converged cfg rules
                 ∧ domain_rule o ∉ removed_subdomains cfg rules).
  { intros h Hh Hon.
    destruct (marked_host_has_surviving_parent rules h Hh)
      as (o & Hne & Hsub & Hin & Hun).
    exists o. split_and!; [done..| |].
    - apply converged_elem. split; [done|]. intros _ _.
      by rewrite domain_of_domain_rule.
    - rewrite removed_subdomains_elem. intros (_ & o' & Heq & Ho').
      by apply domain_rule_inj in Heq as <-. }
  split_and!.
  - destruct (domain_convergence_on cfg) eqn:Hon.
    + by rewrite after_removal_log.
    + unfold removed_subdomains, log_entries. rewrite Hon. simpl.
      by rewrite app_nil_r.
  - intros r (Hon & h & -> & Hh)%removed_subdomains_elem.
    rewrite domain_of_domain_rule. split_and!.
    + by apply hosts_to_remove_spec in Hh as [? _].
    + apply is_domain_rule_domain_rule.
    + rewrite converged_elem, domain_of_domain_rule. intros [_ Hkeep].
      apply Hkeep; [done|apply is_domain_rule_domain_rule|done].
    + by apply Hsurv.
  - intros r Hin Hdom Hfree.
    assert (Hun : domain_convergence_on cfg = true →
                  domain_of r ∉ hosts_to_remove rules).
    { intros Hon Hh. destruct (Hsurv _ Hh Hon) as (o & Hne & Hsub & Ho & _).
      by apply (Hfree o). }
    split.
    + apply converged_elem. split; [done|]. intros Hon _. by apply Hun.
    + rewrite removed_subdomains_elem. intros (Hon & h & Heq & Hh).
      apply (Hun Hon). by rewrite Heq, domain_of_domain_rule.
  - apply converged_other_rules.
  - by intros r [? _]%converged_elem.
Qed.

(* ===================================================================== *)
(** ** Stepping through the monad *)
(* ===================================================================== *)

Lemma bind_run {A B} (m : M A) (f : A → M B) (w : world) :
  (m ≫= f) w
  = match m w with
    | (Returns a, w') => f a w'
    | (Raises e, w') => (Raises e, w')
    end.
Proof. done. Qed.

Lemma bind_assoc_run {A B C} (m : M A) (f : A → M B) (g : B → M C) (w : world) :
  ((m ≫= f) ≫= g) w = (m ≫= λ a, f a ≫= g) w.
Proof. rewrite !bind_run. by destruct (m w) as [[a|e] w']. Qed.

Lemma ret_run {A} (a : A) (w : world) : (mret a : M A) w = (Returns a, w).
Proof. done. Qed.

Lemma now_run (w : world) : now w = (Returns (ticks w), with_tick w).
Proof. done. Qed.

Lemma stat_run (key : string) (w : world) :
  stat key w
  = match stats w !! key with
    | Some v => (Returns v, w)
    | None => (Raises (KeyError (txt key)), w)
    end.
Proof. unfold stat. rewrite bind_run. simpl. by destruct (stats w !! key). Qed.

Lemma set_stat_run (key : string) (v : value) (w : world) :
  set_stat key v w = (Returns (), with_stats <[key := v]> w).
Proof. done. Qed.

Lemma get_world_run (w : world) : get_world w = (Returns w, w).
Proof. done. Qed.

Lemma modify_run (f : world → world) (w : world) :
  modify f w = (Returns (), f w).
Proof. done. Qed.

(** One step of a sequence of monadic operations on an explicit world. *)
Ltac step :=
  rewrite bind_run;
  rewrite ?now_run, ?stat_run, ?set_stat_run, ?modify_run, ?get_world_run,
    ?ret_run;
  cbv beta iota;
  cbn [stats ticks source_dir removed_log optimized_file statistics_file
       with_tick with_stats with_log_entry with_optimized with_statistics].

(* ===================================================================== *)
(** ** [save_results] *)
(* ===================================================================== *)

Section SaveResults.
Variable rt : runtime.
Implicit Types (rules : list text) (w : world).

Lemma save_results_returns rules w w' :
  save_results rt rules w = (Returns (), w') →
  ∃ original reduction,
    stats w !! "original_count"%string = Some original
    ∧ is_Some (stats w !! "reduction_percent"%string)
    ∧ w' = with_optimized
             (header (strftime rt (ticks w)) (isoformat rt (S (ticks w)))
                     (format_value rt original)
                     (decimal (Z.of_nat (length rules))) reduction
              ++ unlines (sorted_texts rules))
             (with_tick (with_tick w))
    ∧ (∃ q, reduction = format_2f rt q).
Proof.
  unfold save_results. do 3 step.
  destruct (stats w !! "original_count"%string) as [original|]; [|done].
  step.
  destruct (stats w !! "reduction_percent"%string) as [reduction|]; [|done].
  step. unfold format_percent.
  destruct reduction as [n|q|t|t1 t2]; rewrite ?ret_run; try done;
    cbv beta iota; rewrite modify_run; intros [= Hw]; subst w';
    eexists _, _; eauto 10.
Qed.

(** Without the key [reduction_percent] the header cannot be built: the
    exception leaves before the file is opened. *)
Lemma save_results_raises rules w original :
  stats w !! "original_count"%string = Some original →
  stats w !! "reduction_percent"%string = None →
  save_results rt rules w
  = (Raises (KeyError (txt "reduction_percent")), with_tick (with_tick w)).
Proof.
  intros Ho Hr. unfold save_results. do 3 step. rewrite Ho. step.
  by rewrite Hr.
Qed.
End SaveResults.

(* ===================================================================== *)
(** ** The order of strings and the sorted output *)
(* ===================================================================== *)

Section TextOrder.
Implicit Types (a b c : text).

Lemma ltb_irrefl a : Str.ltb a a = false.
Proof.
  induction a as [|x a IH]; simpl; [done|].
  by rewrite N.ltb_irrefl, N.eqb_refl.
Qed.

Lemma ltb_asym a b : Str.ltb a b = true → Str.ltb b a = false.
Proof.
  revert b; induction a as [|x a IH]; intros [|y b]; simpl; try done.
  destruct (N.ltb_spec (N_of_ascii x) (N_of_ascii y)) as [Hlt|Hge].
  - intros _. rewrite (proj2 (N.ltb_ge _ _)) by lia.
    by rewrite (proj2 (N.eqb_neq _ _)) by lia.
  - destruct (N.eqb_spec (N_of_ascii x) (N_of_ascii y)) as [Heq|Hne]; [|done].
    intros H. rewrite Heq, N.ltb_irrefl, N.eqb_refl. by apply IH.
Qed.

Lemma ltb_trans a b c :
  Str.ltb a b = true → Str.ltb b c = true → Str.ltb a c = true.
Proof.
  revert b c; induction a as [|x a IH]; intros [|y b] [|z c]; simpl; try done.
  destruct (N.ltb_spec (N_of_ascii x) (N_of_ascii y)) as [Hxy|Hxy];
    destruct (N.ltb_spec (N_of_ascii y) (N_of_ascii z)) as [Hyz|Hyz];
    destruct (N.eqb_spec (N_of_ascii x) (N_of_ascii y)) as [Exy|Exy];
    destruct (N.eqb_spec (N_of_ascii y) (N_of_ascii z)) as [Eyz|Eyz];
    try done; try lia; intros H1 H2;
    destruct (N.ltb_spec (N_of_ascii x) (N_of_ascii z)) as [Hxz|Hxz];
    try done; try lia.
  rewrite (proj2 (N.eqb_eq _ _)) by lia. by eapply IH.
Qed.

(** Two strings that are not ordered either way are equal. *)
Lemma ltb_total a b : Str.ltb a b = false → Str.ltb b a = false → a = b.
Proof.
  revert b; induction a as [|x a IH]; intros [|y b]; simpl; try done.
  destruct (N.ltb_spec (N_of_ascii x) (N_of_ascii y)) as [Hxy|Hxy]; [done|].
  destruct (N.ltb_spec (N_of_ascii y) (N_of_ascii x)) as [Hyx|Hyx]; [|].
  { by rewrite (proj2 (N.eqb_neq _ _)) by lia. }
  assert (N_of_ascii x = N_of_ascii y) as E by lia.
  rewrite E, N.eqb_refl. intros H1 H2.
  f_equal; [|by apply IH].
  by rewrite <- (ascii_N_embedding x), E, ascii_N_embedding.
Qed.

Lemma sorted_texts_Permutation (l : list text) : sorted_texts l ≡ₚ l.
Proof. apply stable_sort_Permutation. Qed.

Lemma sorted_texts_Sorted (l : list text) :
  Sorted (in_order Str.ltb) (sorted_texts l).
Proof. apply stable_sort_Sorted. intros x y. apply ltb_asym. Qed.
End TextOrder.

(* ===================================================================== *)
(** ** Lines *)
(* ===================================================================== *)

Section Lines.
Implicit Types (l : text) (ls : list text).

Lemma unlines_app ls1 ls2 : unlines (ls1 ++ ls2) = unlines ls1 ++ unlines ls2.
Proof. unfold unlines. by rewrite fmap_app, concat_app. Qed.

Lemma header_unlines version last_modified original optimized reduction :
  header version last_modified original optimized reduction
  = unlines (header_lines version last_modified original optimized reduction).
Proof.
  unfold header, header_lines, unlines.
  cbn [fmap list_fmap concat]. by rewrite <- !app_assoc, app_nil_r.
Qed.

(** The number of newlines of a text. *)
Lemma newlines_unlines ls :
  Forall (λ l, newline ∉ l) ls →
  length (filter (λ c, c = newline) (unlines ls)) = length ls.
Proof.
  induction 1 as [|l ls Hl _ IH]; [done|].
  unfold unlines in *. cbn [fmap list_fmap concat length].
  rewrite !filter_app, !length_app, IH.
  assert (filter (λ c, c = newline) l = []) as ->.
  { clear -Hl. induction l as [|c l IH]; [done|].
    rewrite filter_cons, decide_False by (intros ->; apply Hl; left).
    apply IH. intros ?. apply Hl. by right. }
  done.
Qed.

Lemma no_newline_app l1 l2 : newline ∉ l1 → newline ∉ l2 → newline ∉ l1 ++ l2.
Proof. intros ?? [?|?]%elem_of_app; done. Qed.

Lemma no_newline_literal (s : string) :
  bool_decide (newline ∉ txt s) = true → newline ∉ txt s.
Proof. apply bool_decide_eq_true. Qed.

Lemma pretty_N_go_no_newline (x : N) (s : string) :
  newline ∉ txt s → newline ∉ txt (pretty_N_go x s).
Proof.
  revert s. induction (N.lt_wf_0 x) as [x _ IH]; intros s Hs.
  destruct (decide (x = 0)%N) as [->|Hx]; [by rewrite pretty_N_go_0|].
  rewrite pretty_N_go_step by lia. apply IH.
  - apply N.div_lt; lia.
  - unfold txt. simpl. intros [E|?]%elem_of_cons; [|done].
    revert E. unfold pretty_N_char, newline. by repeat case_match.
Qed.

Lemma decimal_no_newline (n : Z) : newline ∉ decimal n.
Proof.
  unfold decimal, pretty, pretty_Z.
  assert (Hp : ∀ p : positive, newline ∉ txt (pretty p)).
  { intros p. unfold pretty, pretty_positive, pretty, pretty_N.
    case_decide; [done|]. apply pretty_N_go_no_newline.
    apply not_elem_of_nil. }
  destruct n as [|p|p]; [by apply no_newline_literal|apply Hp|].
  unfold txt. simpl. intros [E|?]%elem_of_cons; [done|]. by apply (Hp p).
Qed.

Lemma format_value_no_newline rt v :
  runtime_ok rt → newline ∉ format_value rt v.
Proof.
  intros (Hs & Hi & Hf). destruct v; simpl; auto using decimal_no_newline.
Qed.

Lemma header_lines_comment rt t1 t2 original optimized q :
  runtime_ok rt →
  Forall comment_line
    (header_lines (strftime rt t1) (isoformat rt t2) (format_value rt original)
                  (decimal optimized) (format_2f rt q)).
Proof.
  intros Hrt. pose proof (format_value_no_newline rt original Hrt).
  destruct Hrt as (Hs & Hi & Hf).
  pose proof (decimal_no_newline optimized).
  unfold header_lines.
  repeat (apply Forall_cons; split; [split|]); try apply Forall_nil;
    try (by eexists);
    repeat (apply no_newline_app); auto;
    by apply no_newline_literal.
Qed.
End Lines.

Lemma sample_runtime_ok : runtime_ok sample_runtime.
Proof. by repeat split; intros ?; apply no_newline_literal. Qed.

(** C9 (amended). When [save_results] writes the optimized file, the file is
    a block of nine comment lines, each starting with [!] (the eight
    lines of metadata and a closing line ["! "]), followed by the rules, one per
    line and each ended by a newline, in lexicographic order. *)
Theorem save_results_layout (rt : runtime) (rules : list text) (w w' : world) :
  runtime_ok rt →
  save_results rt rules w = (Returns (), w') →
  ∃ file, optimized_file w' = Some file ∧ header_then_sorted_rules 9 rules file.
Proof.
  intros Hrt (original & reduction & _ & _ & -> & q & ->)%save_results_returns.
  eexists. split; [done|].
  eexists _, (sorted_texts rules). split_and!.
  - by rewrite unlines_app, <- header_unlines.
  - done.
  - by apply header_lines_comment.
  - apply sorted_texts_Permutation.
  - apply sorted_texts_Sorted.
Qed.

Lemma save_results_layout_witness :
  ∃ file,
    optimized_file (save_results sample_runtime sample_rules sample_world).2
    = Some file
    ∧ header_then_sorted_rules 9 sample_rules file.
Proof.
  apply (save_results_layout sample_runtime sample_rules sample_world).
  - exact sample_runtime_ok.
  - vm_compute. reflexivity.
Defined.

(** C9 as stated fails: on two rules and a complete set of statistics the
    file that [save_results] writes is not eight comment lines followed by the
    sorted rules; it has one line more. *)
Lemma save_results_header_is_not_8_lines :
  ∃ file,
    optimized_file (save_results sample_runtime sample_rules sample_world).2
    = Some file
    ∧ ¬ header_then_sorted_rules 8 sample_rules file.
Proof.
  eexists. split; [vm_compute; reflexivity|].
  intros (head & body & Hfile & Hlen & Hcomment & Hperm & _).
  apply (f_equal (λ f, length (filter (λ c, c = newline) f))) in Hfile.
  rewrite newlines_unlines, length_app, Hlen, Hperm in Hfile.
  - vm_compute in Hfile. discriminate.
  - apply Forall_app. split.
    + eapply Forall_impl; [exact Hcomment|]. by intros l [_ ?].
    + rewrite Hperm. unfold sample_rules.
      by repeat (apply Forall_cons; split; [apply no_newline_literal|]).
Qed.

(* ===================================================================== *)
(** ** Where every rule of the normalized input ends up *)
(* ===================================================================== *)

Global Instance domain_rule_Inj : Inj (=) (=) domain_rule.
Proof. intros h o. apply domain_rule_inj. Qed.

Section Accounting.
Implicit Types (rules : list text) (r h : text).

(** On distinct rules, convergence splits its input in two: what it logs
    and what it returns. *)
Lemma converged_Permutation cfg rules :
  NoDup rules → rules ≡ₚ removed_subdomains cfg rules ++ converged cfg rules.
Proof.
  intros Hnd. unfold removed_subdomains, converged.
  destruct (domain_convergence_on cfg); [|done].
  set (ks := first_occurrences (anchored_hosts rules)).
  set (marked := hosts_to_remove rules).
  assert (Hks : NoDup ks) by apply first_occurrences_NoDup.
  assert (Hdom : filter (λ r, is_domain_rule r) rules ≡ₚ domain_rule <$> ks).
  { apply NoDup_Permutation.
    - by apply NoDup_filter.
    - by apply (NoDup_fmap_2 domain_rule).
    - intros r. rewrite list_elem_of_filter, list_elem_of_fmap. split.
      + intros [Hr%Is_true_true Hin]. exists (domain_of r).
        split; [by apply domain_rule_domain_of|].
        apply first_occurrences_elem, anchored_hosts_elem.
        by rewrite <- domain_rule_domain_of.
      + intros (h & -> & Hh). split.
        * by rewrite is_domain_rule_domain_rule.
        * by apply first_occurrences_elem, anchored_hosts_elem in Hh. }
  assert (Hmarked : elements marked ≡ₚ filter (λ h, h ∈ marked) ks).
  { apply NoDup_Permutation.
    - apply NoDup_elements.
    - by apply NoDup_filter.
    - intros h. rewrite elem_of_elements, list_elem_of_filter.
      split; [|by intros [? _]]. intros Hh. split; [done|].
      apply first_occurrences_elem, anchored_hosts_elem.
      by apply hosts_to_remove_spec in Hh as [? _]. }
  rewrite <- (filter_app_complement (λ r, is_domain_rule r) rules) at 1.
  rewrite Hdom, <- (filter_app_complement (λ h, h ∈ marked) ks) at 1.
  rewrite fmap_app, Hmarked.
  rewrite <- !app_assoc. apply Permutation_app_head, Permutation_app_comm.
Qed.

Lemma converged_NoDup cfg rules :
  NoDup rules → NoDup (removed_subdomains cfg rules ++ converged cfg rules).
Proof. intros Hnd. by rewrite <- converged_Permutation. Qed.
End Accounting.



(* ===================================================================== *)
(** ** [run] and the exit status *)
(* ===================================================================== *)

Section Run.
Variable cfg : config.
Variable rt : runtime.
Implicit Types (w : world).

Lemma init_run w :
  init w = (Returns (), with_stats (λ _, init_stats (ticks w)) (with_tick w)).
Proof. done. Qed.

Lemma load_rules_run w :
  load_rules w
  = match source_dir w with
    | None => (Returns [], w)
    | Some files =>
        (Returns (concat (omap id files)),
         with_stats <["original_count" :=
                        VInt (Z.of_nat (length (concat (omap id files))))]> w)
    end.
Proof. unfold load_rules. step. by destruct (source_dir w). Qed.

(** No line loaded: [run] returns [False] and writes nothing. *)
Lemma run_without_rules w :
  (source_dir w = None
   ∨ ∃ files, source_dir w = Some files ∧ concat (omap id files) = []) →
  ∃ w', run cfg rt w = (Returns false, w')
        ∧ removed_log w' = removed_log w
        ∧ optimized_file w' = optimized_file w
        ∧ statistics_file w' = statistics_file w.
Proof.
  intros Hsrc. unfold run. rewrite bind_run, load_rules_run.
  destruct Hsrc as [->|(files & -> & ->)]; eexists; split; done.
Qed.

(** Some line loaded and no [reduction_percent] yet: both reduction stages
    run, then [save_results] raises [KeyError]; neither the optimized file
    nor the statistics file is written. *)
Lemma run_with_rules_raises w files :
  source_dir w = Some files → concat (omap id files) ≠ [] →
  stats w !! "reduction_percent"%string = None →
  ∃ w', run cfg rt w = (Raises (KeyError (txt "reduction_percent")), w')
        ∧ optimized_file w' = optimized_file w
        ∧ statistics_file w' = statistics_file w.
Proof.
  intros Hsrc Hne Hred. unfold run. rewrite bind_run, load_rules_run, Hsrc.
  cbv beta iota.
  destruct (concat (omap id files)) as [|r0 raw] eqn:Eraw; [done|].
  cbn [truthy negb]. step.
  rewrite bind_run, deduplicate_rules_run. cbv beta iota.
  rewrite bind_run, domain_convergence_run. cbv beta iota.
  set (w3 := if domain_convergence_on cfg then _ else _).
  assert (Hstats : ∃ v, stats w3 !! "original_count"%string = Some v
                        ∧ stats w3 !! "reduction_percent"%string = None).
  { unfold w3. eexists.
    destruct (domain_convergence_on cfg);
      rewrite !after_removal_stats; cbn [stats with_stats];
      rewrite ?after_removal_stats; cbn [stats with_stats];
      by simplify_map_eq. }
  destruct Hstats as (v & Ho & Hr).
  rewrite bind_run, (save_results_raises rt _ w3 v Ho Hr).
  eexists. split; [done|]. unfold w3.
  destruct (domain_convergence_on cfg); cbn [optimized_file statistics_file with_tick];
    repeat (rewrite ?(proj1 (after_removal_files _ _ _)),
              ?(proj1 (proj2 (after_removal_files _ _ _)));
            cbn [optimized_file statistics_file with_stats]); done.
Qed.

Lemma main_with_rules_fails w files :
  source_dir w = Some files → concat (omap id files) ≠ [] →
  ∃ w', (init;; run cfg rt) w = (Raises (KeyError (txt "reduction_percent")), w')
        ∧ main cfg rt w = (1%Z, w')
        ∧ optimized_file w' = optimized_file w
        ∧ statistics_file w' = statistics_file w.
Proof.
  intros Hsrc Hne. unfold main. rewrite bind_run, init_run. cbv beta iota.
  destruct (run_with_rules_raises
              (with_stats (λ _, init_stats (ticks w)) (with_tick w)) files)
    as (w' & -> & Hopt & Hst); [done..|].
  by exists w'.
Qed.
End Run.

(** C2, the behaviour of the code on a directory with one file of one rule:
    [run] does not return; [save_results] raises [KeyError] for the key
    [reduction_percent], which only [save_statistics] stores and which [run]
    calls afterwards. The process ends with status 1 and neither the optimized
    file nor the statistics file exists. *)
Theorem main_fails_with_one_rule_loaded :
  ∃ w', (init;; run default_config sample_runtime) one_rule_world
        = (Raises (KeyError (txt "reduction_percent")), w')
        ∧ main default_config sample_runtime one_rule_world = (1%Z, w')
        ∧ optimized_file w' = None
        ∧ statistics_file w' = None.
Proof.
  destruct (main_with_rules_fails default_config sample_runtime one_rule_world
              [Some [txt "||a.com^"]]) as (w' & ? & ? & ? & ?); [done..|].
  by exists w'.
Qed.

(** C4. On the lines ["||a.com^"; "||a.com^"; "||x.a.com^"; "! c"; "plain.net"]
    normalization gives four rules, deduplication keeps three and counts one
    duplicate, convergence returns [||a.com^] and [||plain.net^] and counts
    one converged rule. *)
Theorem end_to_end_scenario (w : world) :
  let raw := txt <$> ["||a.com^"; "||a.com^"; "||x.a.com^"; "! c"; "plain.net"]%string in
  let normalized := txt <$> ["||a.com^"; "||a.com^"; "||x.a.com^"; "||plain.net^"]%string in
  let deduplicated := txt <$> ["||a.com^"; "||x.a.com^"; "||plain.net^"]%string in
  let final := txt <$> ["||a.com^"; "||plain.net^"]%string in
  ∃ w1 w2,
    normalize_all default_config raw = normalized
    ∧ deduplicate_rules normalized w = (Returns deduplicated, w1)
    ∧ domain_convergence default_config deduplicated w1 = (Returns final, w2)
    ∧ stats w2 !! "duplicate_count"%string = Some (VInt 1)
    ∧ stats w2 !! "converged_count"%string = Some (VInt 1).
Proof.
  intros raw normalized deduplicated final.
  eexists _, _. split; [by vm_compute|].
  split; [rewrite deduplicate_rules_run; f_equal; by vm_compute|].
  split; [rewrite domain_convergence_run; f_equal; by vm_compute|].
  cbn [domain_convergence_on default_config].
  rewrite !after_removal_stats. cbn [stats with_stats].
  rewrite !after_removal_stats. cbn [stats with_stats].
  split.
  - rewrite lookup_insert_ne by done. rewrite lookup_insert_eq.
    by vm_compute.
  - rewrite lookup_insert_eq. by vm_compute.
Qed.

(** C1, the behaviour of the code on [bad.com$important]: the modifier
    [important] survives the filtering, the rule [bad.com$important] goes as a
    whole through [convert_to_pipe_format], and what comes back is
    [||bad.com^] alone. The same pattern already anchored keeps its option. *)
Theorem normalize_rule_drops_options_of_unanchored_pattern :
  filter_modifiers default_config (txt "bad.com$important") = txt "bad.com$important"
  ∧ convert_to_pipe_format (txt "bad.com") = txt "||bad.com^"
  ∧ normalize_rule default_config (txt "bad.com$important") = Some (txt "||bad.com^")
  ∧ normalize_rule default_config (txt "||bad.com^$important")
    = Some (txt "||bad.com^$important").
Proof. by vm_compute. Qed.

(** C7, the behaviour of the code under the allow-list [domain, important]:
    the listed example comes out as stated, but the same options after a
    pattern that is not anchored are lost, although two of the three tokens
    have an allowed name: the filtered rule goes through
    [convert_to_pipe_format], which rebuilds it from the first host-like
    token it finds. *)
Theorem normalize_rule_loses_allowed_modifiers :
  let cfg := Config true true [txt "domain"; txt "important"] in
  normalize_rule cfg (txt "||bad.com^$domain=good.com,evilmod,important")
  = Some (txt "||bad.com^$domain=good.com,important")
  ∧ filter_modifiers cfg (txt "bad.com$domain=good.com,evilmod,important")
    = txt "bad.com$domain=good.com,important"
  ∧ normalize_rule cfg (txt "bad.com$domain=good.com,evilmod,important")
    = Some (txt "||bad.com^")
  ∧ normalize_rule cfg (txt "/ads/banner$domain=good.com")
    = Some (txt "||good.com^").
Proof. by vm_compute. Qed.

(* ===================================================================== *)
(** ** Further properties of the code *)
(* ===================================================================== *)

(** Whatever the source directory holds, the process ends with status 1 and
    writes neither the optimized file nor the statistics file: with no line
    loaded [run] returns [False], with some line loaded [save_results]
    raises. *)
Theorem main_never_succeeds (cfg : config) (rt : runtime) (w : world) :
  ∃ w', main cfg rt w = (1%Z, w')
        ∧ optimized_file w' = optimized_file w
        ∧ statistics_file w' = statistics_file w.
Proof.
  destruct (source_dir w) as [files|] eqn:Hsrc.
  - destruct (decide (concat (omap id files) = [])) as [Hnil|Hne].
    + unfold main. rewrite bind_run, init_run. cbv beta iota.
      destruct (run_without_rules cfg rt
                  (with_stats (λ _, init_stats (ticks w)) (with_tick w)))
        as (w' & -> & _ & Hopt & Hst); [right; by exists files|].
      by exists w'.
    + destruct (main_with_rules_fails cfg rt w files Hsrc Hne)
        as (w' & _ & Hmain & Hopt & Hst).
      by exists w'.
  - unfold main. rewrite bind_run, init_run. cbv beta iota.
    destruct (run_without_rules cfg rt
                (with_stats (λ _, init_stats (ticks w)) (with_tick w)))
      as (w' & -> & _ & Hopt & Hst); [by left|].
    by exists w'.
Qed.

Section AnchoredWithTail.
Import Re.

Lemma span_len_host host tail :
  Forall (λ c, not_slash_caret_dollar c = true) host →
  span_len not_slash_caret_dollar (host ++ "^"%char :: tail) = length host.
Proof.
  induction 1 as [|c host Hc _ IH]; simpl; [done|]. by rewrite Hc, IH.
Qed.

Lemma lengths_down_head lo hi :
  lo ≤ hi → 0 < hi → ∃ rest, lengths_down lo hi = hi :: rest.
Proof.
  intros Hle Hpos. destruct hi as [|h]; [lia|]. simpl.
  rewrite decide_False by lia. eauto.
Qed.

Lemma matches_Lit c s : matches (Lit c) (c :: s) = [([c], s)].
Proof. simpl. by rewrite decide_True. Qed.

(** The first way to match a concatenation is made of the first ways to
    match its parts. *)
Lemma matches_Cat_first r1 r2 s m1 rest1 tl1 m2 rest2 tl2 :
  matches r1 s = (m1, rest1) :: tl1 →
  matches r2 rest1 = (m2, rest2) :: tl2 →
  ∃ tl, matches (Cat r1 r2) s = (m1 ++ m2, rest2) :: tl.
Proof.
  intros H1 H2. cbn [matches]. rewrite H1.
  cbn [mbind list_bind mjoin list_join fmap list_fmap]. rewrite H2.
  cbn [mbind list_bind mjoin list_join fmap list_fmap app]. eauto.
Qed.

Lemma matches_host host tail :
  host ≠ [] → Forall (λ c, not_slash_caret_dollar c = true) host →
  ∃ tl, matches (Many 1 not_slash_caret_dollar) (host ++ "^"%char :: tail)
        = (host, "^"%char :: tail) :: tl.
Proof.
  intros Hne Hhost. cbn [matches]. rewrite span_len_host by done.
  destruct (lengths_down_head 1 (length host)) as [rest ->];
    [destruct host; [done|simpl; lia]..|].
  cbn [fmap list_fmap]. rewrite take_app_length, drop_app_length. eauto.
Qed.

(** The third test of [convert_to_pipe_format] accepts [||host^] followed
    by anything, when the host is not empty and free of [/], [^], [$]. *)
Lemma anchored_host_matches host tail :
  host ≠ [] → Forall (λ c, not_slash_caret_dollar c = true) host →
  is_Some (re_match anchored_host (txt "||" ++ host ++ txt "^" ++ tail)).
Proof.
  intros Hne Hhost. unfold re_match, anchored_host.
  change (txt "||" ++ host ++ txt "^" ++ tail)
    with ("|"%char :: "|"%char :: host ++ "^"%char :: tail).
  destruct (matches_host host tail Hne Hhost) as [tl3 H3].
  destruct (matches_Cat_first _ (Lit "^") _ _ _ _ _ _ _ H3 (matches_Lit _ _))
    as [tl2 H2].
  destruct (matches_Cat_first (Lit "|") _ _ _ _ _ _ _ _ (matches_Lit _ _) H2)
    as [tl1 H1].
  destruct (matches_Cat_first (Lit "|") _ _ _ _ _ _ _ _ (matches_Lit _ _) H1)
    as [tl0 ->].
  by eexists.
Qed.
End AnchoredWithTail.

(** A rule whose pattern is already [||host^] keeps everything that follows
    the caret, options included: this path of [convert_to_pipe_format]
    returns its argument. *)
Theorem convert_to_pipe_format_keeps_anchored_tail (host tail : text) :
  host ≠ [] → Forall (λ c, Re.not_slash_caret_dollar c = true) host →
  convert_to_pipe_format (txt "||" ++ host ++ txt "^" ++ tail)
  = txt "||" ++ host ++ txt "^" ++ tail.
Proof.
  intros Hne Hhost. unfold convert_to_pipe_format.
  destruct (anchored_host_matches host tail Hne Hhost) as [m ->].
  by repeat case_match.
Qed.

Lemma convert_to_pipe_format_keeps_anchored_tail_witness :
  convert_to_pipe_format (txt "||" ++ txt "bad.com" ++ txt "^" ++ txt "$important")
  = txt "||" ++ txt "bad.com" ++ txt "^" ++ txt "$important".
Proof.
  apply (convert_to_pipe_format_keeps_anchored_tail (txt "bad.com") (txt "$important")).
  - vm_compute. discriminate.
  - vm_compute. repeat constructor.
Defined.

(** The examples of the canonicalization and of the convergence that the
    specification lists. *)
Example canonicalization_examples :
  convert_to_pipe_format (txt "http://sub.bad.net/path?x=1") = txt "||sub.bad.net^"
  ∧ convert_to_pipe_format (txt "@@sub.ok.net/x") = txt "@@||sub.ok.net^"
  ∧ convert_to_pipe_format (txt "/regexonly/") = txt "/regexonly/".
Proof. by vm_compute. Qed.

Example comment_and_blank_lines :
  (λ s, normalize_rule default_config (txt s)) <$> [""; "   "; "! comment"; "# comment"]%string
  = [None; None; None; None].
Proof. by vm_compute. Qed.

Example convergence_examples :
  converged default_config
    (domain_rule ∘ txt <$> ["ads.example.com"; "example.com"; "other.net"]%string)
  = domain_rule ∘ txt <$> ["example.com"; "other.net"]%string
  ∧ removed_subdomains default_config
      (domain_rule ∘ txt <$> ["ads.example.com"; "example.com"; "other.net"]%string)
    = [domain_rule (txt "ads.example.com")]
  ∧ converged default_config (domain_rule ∘ txt <$> ["example.com"; "example.org"]%string)
    = domain_rule ∘ txt <$> ["example.com"; "example.org"]%string.
Proof. by vm_compute. Qed.

Example plain_domain_backtracks :
  Re.re_search Re.plain_domain (txt "see a.com.1 or b.org") = Some (txt "a.com")
  ∧ Re.re_search Re.plain_domain (txt "1.2.3.4") = None
  ∧ Re.re_match Re.anchored_host (txt "||a/b^") = None.
Proof. by vm_compute. Qed.

(* ===================================================================== *)
(** ** The modifier block of [normalize_rule] *)
(* ===================================================================== *)

Section Modifiers.
Implicit Types (s m : text) (sep : ascii).

Lemma split_first_spec sep s :
  sep ∈ s →
  s = (Str.split_first sep s).1 ++ sep :: (Str.split_first sep s).2
  ∧ sep ∉ (Str.split_first sep s).1.
Proof.
  induction s as [|c s IH]; [by intros ?%elem_of_nil|].
  intros Hin. simpl. destruct (decide (c = sep)) as [->|Hne]; simpl.
  - split; [done|apply not_elem_of_nil].
  - apply elem_of_cons in Hin as [->|Hin]; [done|].
    destruct (IH Hin) as [Hs Hnot].
    destruct (Str.split_first sep s) as [a b]. simpl in *.
    split; [by f_equal|]. by intros [?|?]%elem_of_cons.
Qed.

Lemma split_nonempty sep s : Str.split sep s ≠ [].
Proof.
  destruct s as [|c s]; simpl; [done|].
  destruct (decide (c = sep)); [done|]. by destruct (Str.split sep s).
Qed.

(** The name of a modifier is what stands before its first [=]. *)
Lemma mod_name_spec m :
  ∃ rest, m = mod_name m ++ rest
          ∧ ("="%char ∉ mod_name m)
          ∧ (rest = [] ∨ ∃ value, rest = "="%char :: value).
Proof.
  unfold mod_name. induction m as [|c m (rest & Hm & Hnot & Hrest)]; simpl.
  - exists []. split_and!; [done|apply not_elem_of_nil|by left].
  - destruct (decide (c = "="%char)) as [->|Hne]; simpl.
    + exists ("="%char :: m). split_and!; [done|apply not_elem_of_nil|eauto].
    + pose proof (split_nonempty "=" m) as Hsplit.
      destruct (Str.split "=" m) as [|p ps]; [done|]. simpl in *.
      exists rest. split_and!; [by f_equal| |done].
      by intros [?|?]%elem_of_cons.
Qed.
End Modifiers.


(* ===================================================================== *)
(** ** Running a stage on its own output *)
(* ===================================================================== *)

Section Reruns.
Implicit Types (l rules : list text) (h o : text) (w : world).

Lemma first_occurrences_distinct l : NoDup l → first_occurrences l = l.
Proof.
  induction l as [|x l IH] using rev_ind; [done|].
  intros (Hl & Hx & _)%NoDup_app. rewrite first_occurrences_snoc, IH by done.
  rewrite decide_False; [done|]. intros Hin. apply (Hx x Hin). left.
Qed.

Lemma later_occurrences_distinct l : NoDup l → later_occurrences l = [].
Proof.
  induction l as [|x l IH] using rev_ind; [done|].
  intros (Hl & Hx & _)%NoDup_app. rewrite later_occurrences_snoc, IH by done.
  rewrite decide_False; [done|]. intros Hin. apply (Hx x Hin). left.
Qed.

(** Among the rules that convergence returns no host is a proper
    sub-domain of another. *)
Lemma converged_no_parent cfg rules h o :
  domain_convergence_on cfg = true →
  domain_rule h ∈ converged cfg rules → domain_rule o ∈ converged cfg rules →
  ¬ subdomain_of h o.
Proof.
  intros Hon [Hh Hkeep]%converged_elem [Ho _]%converged_elem Hsub.
  apply Hkeep; [done|apply is_domain_rule_domain_rule|].
  rewrite domain_of_domain_rule. apply hosts_to_remove_spec. eauto.
Qed.

Lemma hosts_to_remove_converged cfg rules :
  domain_convergence_on cfg = true →
  hosts_to_remove (converged cfg rules) = ∅.
Proof.
  intros Hon. apply elem_of_equiv_empty_L. intros h.
  rewrite hosts_to_remove_spec. intros (Hh & o & Ho & Hsub).
  by apply (converged_no_parent cfg rules h o).
Qed.

Lemma filter_domain_rules_fmap (ks : list text) :
  filter (λ r, is_domain_rule r) (domain_rule <$> ks) = domain_rule <$> ks.
Proof.
  induction ks as [|k ks IH]; [done|].
  rewrite fmap_cons, filter_cons, decide_True, IH; [done|].
  by rewrite is_domain_rule_domain_rule.
Qed.

Lemma filter_domain_rules_others rules :
  filter (λ r, is_domain_rule r) (filter (λ r, ¬ is_domain_rule r) rules) = [].
Proof.
  induction rules as [|r rules IH]; [done|].
  rewrite (filter_cons (λ r, ¬ is_domain_rule r)). case_decide as Hr; [|done].
  by rewrite filter_cons, decide_False.
Qed.

Lemma converged_idempotent cfg rules :
  converged cfg (converged cfg rules) = converged cfg rules.
Proof.
  destruct (domain_convergence_on cfg) eqn:Hon;
    [|unfold converged; by rewrite Hon].
  unfold converged at 1. rewrite Hon, hosts_to_remove_converged by done.
  rewrite converged_other_rules. unfold converged. rewrite Hon. f_equal.
  set (ks := filter _ (first_occurrences (anchored_hosts rules))).
  assert (Hks : NoDup ks) by apply NoDup_filter, first_occurrences_NoDup.
  assert (anchored_hosts (filter (λ r, ¬ is_domain_rule r) rules
                          ++ (domain_rule <$> ks)) = ks) as ->.
  { unfold anchored_hosts.
    rewrite filter_app, filter_domain_rules_others, filter_domain_rules_fmap.
    simpl. rewrite <- list_fmap_compose.
    rewrite <- (list_fmap_id ks) at 2. apply list_fmap_ext.
    intros _ k _. simpl. apply domain_of_domain_rule. }
  rewrite first_occurrences_distinct by done.
  f_equal. clear. induction ks as [|k ks IH]; [done|].
  rewrite filter_cons, decide_True, IH; [done|]. apply not_elem_of_empty.
Qed.

Lemma removed_subdomains_converged cfg rules :
  removed_subdomains cfg (converged cfg rules) = [].
Proof.
  unfold removed_subdomains. destruct (domain_convergence_on cfg) eqn:Hon; [|done].
  by rewrite hosts_to_remove_converged, elements_empty.
Qed.
End Reruns.

(** A list without repetition goes through [deduplicate_rules] unchanged:
    the counter is set to zero and nothing is appended to the removal log. *)
Theorem deduplicate_rules_distinct (rules : list text) (w : world) :
  NoDup rules →
  deduplicate_rules rules w
  = (Returns rules, with_stats <["duplicate_count" := VInt 0]> w).
Proof.
  intros Hnd. rewrite deduplicate_rules_run.
  by rewrite first_occurrences_distinct, later_occurrences_distinct.
Qed.

Lemma deduplicate_rules_distinct_witness :
  deduplicate_rules sample_rules sample_world
  = (Returns sample_rules,
     with_stats <["duplicate_count" := VInt 0]> sample_world).
Proof.
  apply (deduplicate_rules_distinct sample_rules sample_world).
  unfold sample_rules. apply NoDup_cons. split.
  - by intros [=]%list_elem_of_singleton.
  - apply NoDup_singleton.
Defined.

(** Convergence is complete and stable: in what [domain_convergence] returns
    no anchored host is a proper sub-domain of another one, and a second call
    on that result returns it unchanged and appends nothing to the removal
    log. *)
Theorem domain_convergence_twice (cfg : config) (rules : list text) (w : world) :
  ∃ final w1 w2,
    domain_convergence cfg rules w = (Returns final, w1)
    ∧ domain_convergence cfg final w1 = (Returns final, w2)
    ∧ removed_log w2 = removed_log w1
    ∧ (domain_convergence_on cfg = true →
       ∀ h o, domain_rule h ∈ final → domain_rule o ∈ final →
              ¬ subdomain_of h o).
Proof.
  eexists (converged cfg rules), _, _.
  split; [apply domain_convergence_run|].
  split; [rewrite domain_convergence_run; by rewrite converged_idempotent|].
  split.
  - destruct (domain_convergence_on cfg); [|done].
    rewrite after_removal_log, removed_subdomains_converged.
    cbn [removed_log with_stats]. unfold log_entries. simpl.
    by rewrite app_nil_r.
  - intros Hon h o. by apply converged_no_parent.
Qed.

(* ===================================================================== *)
(** ** The order of the written rules *)
(* ===================================================================== *)

Global Instance in_order_ltb_trans : Transitive (in_order Str.ltb).
Proof.
  intros y x z Hyx Hxz. unfold in_order in *.
  destruct (Str.ltb z y) eqn:Hzy; [|done].
  destruct (Str.ltb y x) eqn:Hyx'.
  - by rewrite (ltb_trans z y x) in Hxz.
  - assert (y = x) as -> by (by apply ltb_total). congruence.
Qed.

Global Instance in_order_ltb_antisym : AntiSymm (=) (in_order Str.ltb).
Proof. intros x y Hxy Hyx. by apply ltb_total. Qed.

(** The sorted list depends on the multiset of its input only. *)
Lemma sorted_texts_canonical (l1 l2 : list text) :
  l1 ≡ₚ l2 → sorted_texts l1 = sorted_texts l2.
Proof.
  intros Hperm. apply (Sorted_unique (in_order Str.ltb));
    [apply sorted_texts_Sorted..|].
  by rewrite !sorted_texts_Permutation.
Qed.

Lemma sorted_texts_sorted_id (l : list text) :
  Sorted (in_order Str.ltb) l → sorted_texts l = l.
Proof.
  intros Hl. apply (Sorted_unique (in_order Str.ltb));
    [apply sorted_texts_Sorted|done|apply sorted_texts_Permutation].
Qed.

(** What [save_results] does depends on which rules it is given and how many
    times each, not on their order: two lists that are permutations of each
    other give the same file (or the same exception). *)
Theorem save_results_order_independent
    (rt : runtime) (rules1 rules2 : list text) (w : world) :
  rules1 ≡ₚ rules2 → save_results rt rules1 w = save_results rt rules2 w.
Proof.
  intros Hperm. unfold save_results.
  by rewrite (sorted_texts_canonical _ _ Hperm), (Permutation_length Hperm).
Qed.

Lemma save_results_order_independent_witness :
  save_results sample_runtime [txt "||b.com^"; txt "||a.com^"] sample_world
  = save_results sample_runtime [txt "||a.com^"; txt "||b.com^"] sample_world.
Proof.
  apply (save_results_order_independent sample_runtime
           [txt "||b.com^"; txt "||a.com^"] [txt "||a.com^"; txt "||b.com^"]).
  apply Permutation_swap.
Defined.

(* ===================================================================== *)
(** ** The removal log over a whole run *)
(* ===================================================================== *)

Section LogOfRun.
Variable cfg : config.
Variable rt : runtime.
Implicit Types (w : world).

Lemma log_entries_batches reason t removed :
  Forall (batch_ok [reason]) (log_entries reason t removed)
  ∧ length (log_entries reason t removed) ≤ 1.
Proof.
  unfold log_entries. destruct removed as [|r removed]; simpl.
  - split; [constructor | lia].
  - split; [|lia]. apply Forall_singleton. split_and!; simpl; [done..|].
    apply list_elem_of_singleton. done.
Qed.

Lemma batch_ok_weaken reasons reasons' r :
  reasons ⊆ reasons' → batch_ok reasons r → batch_ok reasons' r.
Proof. intros Hsub (? & ? & ?). split_and!; [done..|]. by apply Hsub. Qed.

(** The removal log after a run that loaded some line: the two batches of
    the reduction stages behind what was there. *)
Lemma run_with_rules_log w files :
  source_dir w = Some files → concat (omap id files) ≠ [] →
  stats w !! "reduction_percent"%string = None →
  ∃ t1 t2,
    removed_log (run cfg rt w).2
    = removed_log w
      ++ log_entries "duplicates" t1
           (later_occurrences (normalize_all cfg (concat (omap id files))))
      ++ log_entries "subdomains" t2
           (removed_subdomains cfg
              (first_occurrences (normalize_all cfg (concat (omap id files))))).
Proof.
  intros Hsrc Hne Hred. unfold run. rewrite bind_run, load_rules_run, Hsrc.
  cbv beta iota.
  destruct (concat (omap id files)) as [|r0 raw] eqn:Eraw; [done|].
  cbn [truthy negb]. step.
  rewrite bind_run, deduplicate_rules_run. cbv beta iota.
  rewrite bind_run, domain_convergence_run. cbv beta iota.
  set (w2 := after_removal "duplicates" _ _).
  set (w3 := if domain_convergence_on cfg then _ else _).
  assert (Hstats : ∃ v, stats w3 !! "original_count"%string = Some v
                        ∧ stats w3 !! "reduction_percent"%string = None).
  { unfold w3, w2. eexists.
    destruct (domain_convergence_on cfg);
      rewrite !after_removal_stats; cbn [stats with_stats];
      rewrite ?after_removal_stats; cbn [stats with_stats];
      by simplify_map_eq. }
  destruct Hstats as (v & Ho & Hr).
  rewrite bind_run, (save_results_raises rt _ w3 v Ho Hr).
  cbn [snd removed_log with_tick].
  exists (ticks w), (ticks w2).
  assert (Hw2 : removed_log w2 = removed_log w ++ log_entries "duplicates" (ticks w)
                  (later_occurrences (normalize_all cfg (r0 :: raw)))).
  { unfold w2. by rewrite after_removal_log. }
  unfold w3. destruct (domain_convergence_on cfg) eqn:Hon.
  - rewrite after_removal_log. cbn [removed_log ticks with_stats].
    by rewrite Hw2, <- app_assoc.
  - unfold removed_subdomains, log_entries at 2. rewrite Hon. simpl.
    by rewrite Hw2, app_nil_r.
Qed.
End LogOfRun.

(** The removal log is append-only over a whole run of the program: what
    [main] leaves is the log it found followed by at most two new batches;
    every new batch is non-empty, its count is the number of its rules, and
    its reason is [duplicates] or [subdomains]. *)
Theorem main_appends_to_removal_log (cfg : config) (rt : runtime) (w : world) :
  ∃ new,
    removed_log (main cfg rt w).2 = removed_log w ++ new
    ∧ length new ≤ 2
    ∧ Forall (batch_ok ["duplicates"; "subdomains"]%string) new.
Proof.
  set (w0 := with_stats (λ _, init_stats (ticks w)) (with_tick w)).
  assert (Hmain : (main cfg rt w).2 = (run cfg rt w0).2).
  { unfold main. rewrite bind_run, init_run. cbv beta iota. fold w0.
    by destruct (run cfg rt w0) as [[[|]|e] w']. }
  rewrite Hmain.
  destruct (source_dir w) as [files|] eqn:Hsrc.
  - destruct (decide (concat (omap id files) = [])) as [Hnil|Hne].
    + destruct (run_without_rules cfg rt w0) as (w' & -> & Hlog & _);
        [right; by exists files|].
      exists []. rewrite app_nil_r. split_and!; [done|simpl; lia|constructor].
    + destruct (run_with_rules_log cfg rt w0 files Hsrc Hne) as (t1 & t2 & ->);
        [done|].
      eexists. split; [done|].
      destruct (log_entries_batches "duplicates" t1
        (later_occurrences (normalize_all cfg (concat (omap id files)))))
        as [Hb1 Hl1].
      destruct (log_entries_batches "subdomains" t2
        (removed_subdomains cfg
           (first_occurrences (normalize_all cfg (concat (omap id files))))))
        as [Hb2 Hl2].
      split; [rewrite length_app; lia|]. apply Forall_app. split.
      * eapply Forall_impl; [exact Hb1|]. intros r. apply batch_ok_weaken.
        set_solver.
      * eapply Forall_impl; [exact Hb2|]. intros r. apply batch_ok_weaken.
        set_solver.
  - destruct (run_without_rules cfg rt w0) as (w' & -> & Hlog & _); [by left|].
    exists []. rewrite app_nil_r. split_and!; [done|simpl; lia|constructor].
Qed.

(* ===================================================================== *)
(** ** [save_statistics] *)
(* ===================================================================== *)

Section Statistics.
Implicit Types (w : world) (st : gmap string value).

Lemma stat_int_run key w n :
  stats w !! key = Some (VInt n) → stat_int key w = (Returns n, w).
Proof. intros H. unfold stat_int. rewrite bind_run, stat_run, H. done. Qed.

(** Looking up a key of [self.stats] behind the updates made so far. *)
Ltac find_stat :=
  cbn [stats ticks with_tick with_stats];
  rewrite ?lookup_insert_ne by done;
  first [eassumption | apply lookup_insert_eq].

Lemma save_statistics_run w o v d c t0 :
  has_counters (stats w) o v d c t0 →
  save_statistics w
  = (Returns (),
     with_statistics (final_stats (stats w) o (v - d - c) t0 (ticks w))
       (with_stats (λ _, final_stats (stats w) o (v - d - c) t0 (ticks w))
          (with_tick w))).
Proof.
  intros (Ho & Hv & Hd & Hc & Ht). unfold save_statistics.
  rewrite bind_run, (stat_int_run _ _ v) by find_stat. cbv beta iota.
  rewrite bind_run, (stat_int_run _ _ d) by find_stat. cbv beta iota.
  rewrite bind_run, (stat_int_run _ _ c) by find_stat. cbv beta iota.
  do 4 step. rewrite lookup_insert_eq. cbv beta iota. step.
  rewrite lookup_insert_ne, lookup_insert_ne, Ht by done. cbv beta iota.
  step.
  rewrite bind_run, (stat_int_run _ _ o) by find_stat. cbv beta iota.
  unfold final_stats, reduction_of.
  destruct (0 <? o)%Z eqn:Hpos.
  - rewrite bind_run, bind_run, (stat_int_run _ _ o) by find_stat.
    cbv beta iota.
    rewrite bind_run, (stat_int_run _ _ (v - d - c)) by find_stat.
    cbv beta iota.
    rewrite bind_run, (stat_int_run _ _ o) by find_stat. cbv beta iota.
    apply Z.ltb_lt in Hpos. destruct o as [|p|p]; [lia| |lia].
    rewrite set_stat_run. cbv beta iota. step. done.
  - rewrite bind_run, set_stat_run. cbv beta iota. step. done.
Qed.

Lemma final_stats_fields st o v d c t0 t :
  has_counters st o v d c t0 →
  Forall (λ key, is_Some (final_stats st o (v - d - c) t0 t !! key))
         statistics_fields.
Proof.
  intros (Ho & Hv & Hd & Hc & Ht). unfold statistics_fields, final_stats.
  repeat (apply Forall_cons; split; [by simplify_map_eq|]). constructor.
Qed.

Lemma length_normalize_all cfg (raw : list text) :
  length (normalize_all cfg raw) ≤ length raw.
Proof.
  unfold normalize_all. induction raw as [|r raw IH]; [done|].
  cbn [omap list_omap]. fold (@omap list _ text text) in *.
  destruct (_ ≫= _); cbn [length]; lia.
Qed.

(** The two reduction stages give back exactly the rules they do not count
    as removed. *)
Lemma length_converged cfg (rules : list text) :
  NoDup rules →
  length rules = length (removed_subdomains cfg rules)
                 + length (converged cfg rules).
Proof.
  intros Hnd. by rewrite (converged_Permutation cfg rules Hnd) at 1;
    rewrite length_app.
Qed.

Lemma length_removed_subdomains cfg (rules : list text) :
  length (removed_subdomains cfg rules)
  = if domain_convergence_on cfg then size (hosts_to_remove rules) else 0.
Proof.
  unfold removed_subdomains. destruct (domain_convergence_on cfg); [|done].
  by rewrite length_fmap.
Qed.
End Statistics.

Section StatisticsOfStages.
Variable cfg : config.
Implicit Types (w : world).

Lemma reduction_of_bounds (o f : Z) :
  (0 ≤ f ≤ o)%Z →
  match reduction_of o f with
  | VRatio q => (0 <= q)%Q ∧ (q <= 100)%Q
  | VInt n => n = 0%Z ∧ o = 0%Z
  | _ => False
  end.
Proof.
  intros Hf. unfold reduction_of. destruct (0 <? o)%Z eqn:Hpos.
  - apply Z.ltb_lt in Hpos. unfold Qle. simpl.
    rewrite Z2Pos.id by done. split; nia.
  - apply Z.ltb_ge in Hpos. split; [done|lia].
Qed.

(** What the counters say after the two reduction stages. *)
Lemma stages_keep_counters (normalized : list text) w o v t0 :
  stats w !! "original_count"%string = Some (VInt o) →
  stats w !! "valid_count"%string = Some (VInt v) →
  stats w !! "converged_count"%string = Some (VInt 0) →
  stats w !! "start_time"%string = Some (VTime t0) →
  ∃ w2,
    (deduplicate_rules normalized ≫= domain_convergence cfg) w
    = (Returns (converged cfg (first_occurrences normalized)), w2)
    ∧ has_counters (stats w2) o v
        (Z.of_nat (length (later_occurrences normalized)))
        (Z.of_nat (length (removed_subdomains cfg (first_occurrences normalized))))
        t0
    ∧ optimized_file w2 = optimized_file w.
Proof.
  intros Ho Hv Hc Ht. eexists.
  rewrite bind_run, deduplicate_rules_run. cbv beta iota.
  rewrite domain_convergence_run. split; [done|].
  rewrite length_removed_subdomains.
  destruct (domain_convergence_on cfg);
    rewrite ?(proj1 (after_removal_files _ _ _)), !after_removal_stats;
    cbn [stats optimized_file with_stats];
    rewrite ?(proj1 (after_removal_files _ _ _)), ?after_removal_stats;
    cbn [stats optimized_file with_stats];
    (split; [|done]); unfold has_counters; by simplify_map_eq.
Qed.
End StatisticsOfStages.

(** When the stages run in the order of [run] on the lines [raw], with the
    counters as [load_rules] and the normalization loop leave them,
    [save_statistics] returns and the document it writes counts every rule:
    [final_count] is the number of rules that domain convergence returned,
    and [reduction_percent] is 0 for no line at all and lies between 0 and
    100 otherwise. *)
Theorem statistics_count_the_final_rules
    (cfg : config) (raw : list text) (w : world) (t0 : nat) :
  stats w !! "original_count"%string = Some (VInt (Z.of_nat (length raw))) →
  stats w !! "valid_count"%string
    = Some (VInt (Z.of_nat (length (normalize_all cfg raw)))) →
  stats w !! "converged_count"%string = Some (VInt 0) →
  stats w !! "start_time"%string = Some (VTime t0) →
  ∃ final w' doc reduction,
    (d ← deduplicate_rules (normalize_all cfg raw);
     f ← domain_convergence cfg d;
     save_statistics;; mret f) w = (Returns final, w')
    ∧ statistics_file w' = Some doc
    ∧ doc !! "final_count"%string = Some (VInt (Z.of_nat (length final)))
    ∧ doc !! "reduction_percent"%string = Some reduction
    ∧ match reduction with
      | VRatio q => (0 <= q)%Q ∧ (q <= 100)%Q
      | VInt n => n = 0%Z ∧ raw = []
      | _ => False
      end
    ∧ Forall (λ key, is_Some (doc !! key)) statistics_fields
    ∧ optimized_file w' = optimized_file w.
Proof.
  intros Ho Hv Hc Ht.
  set (normalized := normalize_all cfg raw) in *.
  destruct (stages_keep_counters cfg normalized w _ _ t0 Ho Hv Hc Ht)
    as (w2 & Hstages & Hcounters & Hopt).
  set (final := converged cfg (first_occurrences normalized)) in *.
  set (d := Z.of_nat (length (later_occurrences normalized))) in *.
  set (c := Z.of_nat (length (removed_subdomains cfg (first_occurrences normalized)))) in *.
  assert (Hfinal : (Z.of_nat (length normalized) - d - c)%Z
                   = Z.of_nat (length final)).
  { pose proof (Permutation_length (dedup_Permutation normalized)) as H1.
    rewrite length_app in H1.
    pose proof (length_converged cfg (first_occurrences normalized)
                  (first_occurrences_NoDup _)) as H2.
    subst d c final. lia. }
  assert (Hle : (0 ≤ Z.of_nat (length final) ≤ Z.of_nat (length raw))%Z).
  { pose proof (length_normalize_all cfg raw). fold normalized in H.
    subst d c. lia. }
  eexists final, _, _, _.
  rewrite <- (bind_assoc_run (deduplicate_rules normalized)
                (domain_convergence cfg) (λ f, save_statistics;; mret f)).
  rewrite bind_run, Hstages. cbv beta iota.
  rewrite bind_run, (save_statistics_run w2 _ _ _ _ _ Hcounters).
  cbv beta iota. rewrite ret_run. split; [done|].
  cbn [statistics_file optimized_file with_statistics with_stats with_tick].
  rewrite Hfinal. split; [done|]. split.
  { unfold final_stats. by simplify_map_eq. }
  split.
  { unfold final_stats. apply lookup_insert_eq. }
  split.
  { pose proof (reduction_of_bounds _ _ Hle) as Hb.
    destruct (reduction_of _ _); try done.
    destruct Hb as [-> Hz]. split; [done|].
    destruct raw; [done|simpl in Hz; lia]. }
  split; [|done].
  rewrite <- Hfinal. by apply final_stats_fields.
Qed.

Lemma statistics_count_the_final_rules_witness :
  ∃ final w' doc reduction,
    (d ← deduplicate_rules (normalize_all default_config counted_lines);
     f ← domain_convergence default_config d;
     save_statistics;; mret f) counted_world = (Returns final, w')
    ∧ statistics_file w' = Some doc
    ∧ doc !! "final_count"%string = Some (VInt (Z.of_nat (length final)))
    ∧ doc !! "reduction_percent"%string = Some reduction
    ∧ match reduction with
      | VRatio q => (0 <= q)%Q ∧ (q <= 100)%Q
      | VInt n => n = 0%Z ∧ counted_lines = []
      | _ => False
      end
    ∧ Forall (λ key, is_Some (doc !! key)) statistics_fields
    ∧ optimized_file w' = optimized_file counted_world.
Proof.
  apply (statistics_count_the_final_rules default_config counted_lines
           counted_world 0); vm_compute; reflexivity.
Defined.

Section SaveOrder.
Variable rt : runtime.
Implicit Types (w : world) (rules : list text).

(** [save_results] returns as soon as both keys are there and the reduction
    is a number. *)
Lemma save_results_run rules w original o f :
  stats w !! "original_count"%string = Some original →
  stats w !! "reduction_percent"%string = Some (reduction_of o f) →
  ∃ file,
    save_results rt rules w
    = (Returns (), with_optimized file (with_tick (with_tick w))).
Proof.
  intros Ho Hr. unfold save_results. do 3 step. rewrite Ho. step.
  rewrite Hr. step. unfold reduction_of, format_percent.
  destruct (0 <? o)%Z; rewrite ret_run; cbv beta iota; rewrite modify_run;
    by eexists.
Qed.
End SaveOrder.

(** The two save methods depend on each other in one direction only. On an
    optimizer whose counters are set and that has no [reduction_percent]
    yet, [save_results] raises [KeyError]; called after [save_statistics] it
    returns, and then both the statistics document, with its nine fields, and
    the optimized file are written. *)
Theorem save_statistics_before_save_results
    (rt : runtime) (rules : list text) (w : world) (o v d c : Z) (t0 : nat) :
  has_counters (stats w) o v d c t0 →
  stats w !! "reduction_percent"%string = None →
  (∃ w1, save_results rt rules w
         = (Raises (KeyError (txt "reduction_percent")), w1)
         ∧ optimized_file w1 = optimized_file w)
  ∧ ∃ w2 doc file,
      (save_statistics;; save_results rt rules) w = (Returns (), w2)
      ∧ statistics_file w2 = Some doc
      ∧ doc = final_stats (stats w) o (v - d - c) t0 (ticks w)
      ∧ Forall (λ key, is_Some (doc !! key)) statistics_fields
      ∧ optimized_file w2 = Some file.
Proof.
  intros Hcounters Hred. split.
  - destruct Hcounters as (Ho & _). eexists.
    split; [by eapply save_results_raises|done].
  - destruct (save_results_run rt rules
                (with_statistics (final_stats (stats w) o (v - d - c) t0 (ticks w))
                   (with_stats (λ _, final_stats (stats w) o (v - d - c) t0 (ticks w))
                      (with_tick w)))
                (VInt o) o (v - d - c)) as [file Hsave].
    + destruct Hcounters as (Ho & _). cbn [stats with_statistics with_stats].
      unfold final_stats. by simplify_map_eq.
    + cbn [stats with_statistics with_stats]. apply lookup_insert_eq.
    + eexists _, _, file.
      rewrite bind_run, (save_statistics_run w o v d c t0 Hcounters).
      cbv beta iota. rewrite Hsave. split; [done|].
      cbn [statistics_file optimized_file with_optimized with_tick
           with_statistics with_stats].
      split_and!; [done..| |done]. by apply final_stats_fields.
Qed.

Lemma save_statistics_before_save_results_witness :
  (∃ w1, save_results sample_runtime sample_rules counted_world
         = (Raises (KeyError (txt "reduction_percent")), w1)
         ∧ optimized_file w1 = optimized_file counted_world)
  ∧ ∃ w2 doc file,
      (save_statistics;; save_results sample_runtime sample_rules) counted_world
      = (Returns (), w2)
      ∧ statistics_file w2 = Some doc
      ∧ doc = final_stats (stats counted_world) 4 (3 - 0 - 0) 0
                (ticks counted_world)
      ∧ Forall (λ key, is_Some (doc !! key)) statistics_fields
      ∧ optimized_file w2 = Some file.
Proof.
  apply (save_statistics_before_save_results sample_runtime sample_rules
           counted_world 4 3 0 0 0).
  - vm_compute. by repeat split.
  - vm_compute. reflexivity.
Defined.

(* ===================================================================== *)
(** ** What the two regular expressions match *)
(* ===================================================================== *)

Section RegexFacts.
Import Re.
Implicit Types (r : regex) (s m rest : text).

(** A way to match splits the text in what is matched and what follows. *)
Lemma matches_split r s m rest : (m, rest) ∈ matches r s → s = m ++ rest.
Proof.
  revert s m rest. induction r as [c|r1 IH1 r2 IH2|n p]; intros s m rest; simpl.
  - destruct s as [|c' t]; [by intros ?%elem_of_nil|].
    case_decide; [|by intros ?%elem_of_nil].
    by intros [= -> ->]%list_elem_of_singleton.
  - intros ([m1 rest1] & Hin & H1)%list_elem_of_bind.
    apply list_elem_of_bind in Hin as ([m2 rest2] & Hin & H2).
    apply list_elem_of_singleton in Hin as [= -> ->].
    apply IH1 in H1 as ->. apply IH2 in H2 as ->. by rewrite app_assoc.
  - intros (k & [= -> ->] & _)%list_elem_of_fmap. by rewrite take_drop.
Qed.

Lemma lengths_down_elem lo hi k : k ∈ lengths_down lo hi → lo ≤ k ≤ hi.
Proof.
  induction hi as [|h IH]; simpl.
  - case_decide; [by intros ?%elem_of_nil|].
    intros ->%list_elem_of_singleton. lia.
  - case_decide; [by intros ?%elem_of_nil|].
    intros [->|Hin]%elem_of_cons; [lia|]. apply IH in Hin. lia.
Qed.

Lemma take_span_len p s k :
  k ≤ span_len p s → Forall (λ c, p c = true) (take k s).
Proof.
  revert k. induction s as [|c s IH]; intros k Hk.
  - rewrite take_nil. constructor.
  - destruct k as [|k]; [constructor|]. simpl in *.
    destruct (p c) eqn:Hc; [|lia]. constructor; [done|]. apply IH. lia.
Qed.

(** A greedy repetition matches at least [n] characters, all of the class. *)
Lemma matches_Many n p s m rest :
  (m, rest) ∈ matches (Many n p) s →
  n ≤ length m ∧ Forall (λ c, p c = true) m.
Proof.
  simpl. intros (k & [= -> ->] & Hk%lengths_down_elem)%list_elem_of_fmap.
  split.
  - rewrite length_take. assert (span_len p s ≤ length s); [|lia].
    clear. induction s as [|c s IH]; simpl; [done|]. destruct (p c); lia.
  - apply take_span_len. lia.
Qed.

Lemma re_match_elem r s m :
  re_match r s = Some m → ∃ rest, (m, rest) ∈ matches r s.
Proof.
  unfold re_match. destruct (matches r s) as [|[m' rest] l]; [done|].
  intros [= <-]. exists rest. left.
Qed.

(** What [re.search] returns stands somewhere in the text. *)
Lemma re_search_infix r s m :
  re_search r s = Some m →
  ∃ pre post, s = pre ++ m ++ post ∧ (m, post) ∈ matches r (m ++ post).
Proof.
  induction s as [|c s IH]; simpl.
  - destruct (re_match r []) as [m'|] eqn:E; [|done]. intros [= ->].
    apply re_match_elem in E as [rest E]. exists [], rest.
    pose proof (matches_split _ _ _ _ E) as Hs. rewrite <- Hs. done.
  - destruct (re_match r (c :: s)) as [m'|] eqn:E.
    + intros [= ->]. apply re_match_elem in E as [rest E]. exists [], rest.
      pose proof (matches_split _ _ _ _ E) as Hs. rewrite <- Hs. done.
    + intros (pre & post & -> & Hm)%IH. by exists (c :: pre), post.
Qed.

Lemma plain_domain_host_like s m rest :
  (m, rest) ∈ matches plain_domain s → host_like m.
Proof.
  unfold plain_domain. cbn [matches].
  intros ([m1 rest1] & Hin & H1)%list_elem_of_bind.
  apply list_elem_of_bind in Hin as ([m2 rest2] & Hin & H2).
  apply list_elem_of_singleton in Hin as [= -> ->].
  apply list_elem_of_bind in H2 as ([m3 rest3] & Hin & H3).
  apply list_elem_of_bind in Hin as ([m4 rest4] & Hin & H4).
  apply list_elem_of_singleton in Hin as [= -> ->].
  apply (matches_Many 1) in H1 as [Hlen1 Hcls1].
  apply (matches_Many 2) in H4 as [Hlen4 Hcls4].
  destruct rest1 as [|c' t]; [by apply elem_of_nil in H3|]. simpl in H3.
  case_decide as Hc; [|by apply elem_of_nil in H3].
  apply list_elem_of_singleton in H3 as [= -> ->]. subst c'.
  exists m1, m4. split_and!; [done| |done..].
  intros ->. simpl in Hlen1. lia.
Qed.
End RegexFacts.

Lemma convert_shape (rule : text) :
  convert_to_pipe_format rule = rule
  ∨ ∃ pre d post,
      rule = pre ++ d ++ post ∧ host_like d
      ∧ (txt "@@" `prefix_of` rule
         ∧ convert_to_pipe_format rule = txt "@@||" ++ d ++ txt "^"
         ∨ ¬ txt "@@" `prefix_of` rule
           ∧ convert_to_pipe_format rule = domain_rule d).
Proof.
  unfold convert_to_pipe_format, domain_rule.
  destruct (_ && _); [by left|]. destruct (_ && _); [by left|].
  destruct (Re.re_match _ _); [by left|].
  destruct (Re.re_search Re.plain_domain rule) as [d|] eqn:E; [|by left].
  right. apply re_search_infix in E as (pre & post & -> & Hm).
  apply plain_domain_host_like in Hm. exists pre, d, post.
  split_and!; [done..|].
  destruct (Str.startswith _ _) eqn:Hat.
  - left. by apply startswith_prefix in Hat.
  - right. split; [|done]. intros Hp%startswith_prefix. congruence.
Qed.

(** What [convert_to_pipe_format] rewrites a rule to. Either the rule comes
    back as it is, or the result is [||d^], or [@@||d^] for a rule that starts
    with [@@], where [d] is a host-like token that stands in the rule: the rest
    of the rule is dropped. *)
Theorem convert_to_pipe_format_keeps_one_host (rule : text) :
  convert_to_pipe_format rule = rule
  ∨ ∃ pre d post,
      rule = pre ++ d ++ post ∧ host_like d
      ∧ (txt "@@" `prefix_of` rule
         ∧ convert_to_pipe_format rule = txt "@@||" ++ d ++ txt "^"
         ∨ ¬ txt "@@" `prefix_of` rule
           ∧ convert_to_pipe_format rule = domain_rule d).
Proof. apply convert_shape. Qed.

(* ===================================================================== *)
(** ** White space: [strip] and [re.sub(r'\s+', ' ', ...)] *)
(* ===================================================================== *)

Section WhiteSpace.
Import Str.
Implicit Types (s t : text) (c : ascii) (b : bool).

Lemma lstrip_suffix s :
  ∃ sp, s = sp ++ lstrip s ∧ Forall (λ c, is_space c = true) sp.
Proof.
  induction s as [|c s (sp & Hs & Hsp)]; simpl; [by exists []|].
  destruct (is_space c) eqn:Hc.
  - exists (c :: sp). split; [simpl; by rewrite <- Hs|by constructor].
  - by exists [].
Qed.

Lemma lstrip_head s :
  match lstrip s with c :: _ => is_space c = false | [] => True end.
Proof.
  induction s as [|c s IH]; simpl; [done|].
  by destruct (is_space c) eqn:Hc.
Qed.

Lemma lstrip_id s :
  match s with c :: _ => is_space c = false | [] => True end → lstrip s = s.
Proof. destruct s as [|c s]; simpl; [done|]. by intros ->. Qed.

Lemma rstrip_prefix s :
  ∃ sp, s = rstrip s ++ sp ∧ Forall (λ c, is_space c = true) sp.
Proof.
  unfold rstrip. destruct (lstrip_suffix (rev s)) as (sp & Hs & Hsp).
  exists (rev sp). split.
  - rewrite <- rev_app_distr, <- Hs. by rewrite rev_involutive.
  - apply Forall_forall. intros c Hc. rewrite Forall_forall in Hsp.
    apply Hsp. by apply list_elem_of_In, in_rev, list_elem_of_In.
Qed.

(** [strip] cuts white space off both ends and nothing else. *)
Lemma strip_infix s :
  ∃ sp1 sp2, s = sp1 ++ strip s ++ sp2
             ∧ Forall (λ c, is_space c = true) sp1
             ∧ Forall (λ c, is_space c = true) sp2.
Proof.
  unfold strip. destruct (lstrip_suffix s) as (sp1 & Hs & Hsp1).
  destruct (rstrip_prefix (lstrip s)) as (sp2 & Hs' & Hsp2).
  exists sp1, sp2. by rewrite <- Hs'.
Qed.

Lemma ends_with_char_rstrip s : ends_with_char (rstrip s) = true.
Proof.
  unfold ends_with_char, rstrip. rewrite rev_involutive.
  pose proof (lstrip_head (rev s)) as H. destruct (lstrip (rev s)); [done|].
  by rewrite H.
Qed.

Lemma rstrip_id s : ends_with_char s = true → rstrip s = s.
Proof.
  unfold ends_with_char, rstrip. intros H. rewrite lstrip_id.
  - apply rev_involutive.
  - destruct (rev s); [done|]. by apply negb_true_iff.
Qed.

Lemma strip_head s :
  match strip s with c :: _ => is_space c = false | [] => True end.
Proof.
  unfold strip. pose proof (lstrip_head s) as Hl.
  destruct (rstrip_prefix (lstrip s)) as (sp & Hs & _).
  destruct (rstrip (lstrip s)) as [|c t]; [done|].
  rewrite Hs in Hl. done.
Qed.

Lemma ends_with_char_snoc s c : ends_with_char (s ++ [c]) = negb (is_space c).
Proof. unfold ends_with_char. by rewrite rev_app_distr. Qed.

Lemma ends_with_char_app s t : t ≠ [] → ends_with_char (s ++ t) = ends_with_char t.
Proof.
  intros Ht. destruct t as [|c t] using rev_ind; [done|].
  by rewrite app_assoc, !ends_with_char_snoc.
Qed.

Lemma well_spaced_weaken b s : well_spaced b s = true → well_spaced true s = true.
Proof.
  destruct s as [|c s]; simpl; [done|]. destruct (is_space c); [|done].
  intros [[_ ->]%andb_true_iff ->]%andb_true_iff. done.
Qed.

Lemma well_spaced_head s :
  well_spaced false s = true →
  match s with c :: _ => is_space c = false | [] => True end.
Proof. destruct s as [|c s]; simpl; [done|]. by destruct (is_space c). Qed.

Lemma well_spaced_start b s :
  match s with c :: _ => is_space c = false | [] => True end →
  well_spaced b s = well_spaced false s.
Proof. destruct s as [|c s]; simpl; [done|]. by intros ->. Qed.

Lemma well_spaced_app_l b s t :
  well_spaced b (s ++ t) = true → well_spaced b s = true.
Proof.
  revert b. induction s as [|c s IH]; intros b; simpl; [done|].
  destruct (is_space c); [|apply IH].
  intros [Hb Hs]%andb_true_iff. rewrite Hb. by apply IH.
Qed.

Lemma well_spaced_app_r b s t :
  well_spaced b (s ++ t) = true → well_spaced true t = true.
Proof.
  revert b. induction s as [|c s IH]; intros b; simpl;
    [apply well_spaced_weaken|].
  destruct (is_space c); [|apply IH]. intros [_ Hs]%andb_true_iff. by eapply IH.
Qed.

(** Two well spaced texts around a character that is not white space. *)
Lemma well_spaced_sep b s sep t :
  is_space sep = false →
  well_spaced b s = true → well_spaced true t = true →
  well_spaced b (s ++ sep :: t) = true.
Proof.
  intros Hsep. revert b. induction s as [|c s IH]; intros b Hs Ht; simpl.
  - by rewrite Hsep.
  - simpl in Hs. destruct (is_space c); [|by apply IH].
    apply andb_true_iff in Hs as [-> Hs]. by apply IH.
Qed.

Lemma well_spaced_lstrip b s :
  well_spaced b s = true → well_spaced false (lstrip s) = true.
Proof.
  revert b. induction s as [|c s IH]; intros b; simpl; [done|].
  destruct (is_space c) eqn:Hc.
  - intros [_ Hs]%andb_true_iff. by eapply IH.
  - simpl. by rewrite Hc.
Qed.

(** A substring of a well spaced text is tidy once stripped. *)
Lemma tidy_strip b s : well_spaced b s = true → tidy (strip s).
Proof.
  intros Hs. split; [|apply ends_with_char_rstrip]. unfold strip.
  destruct (rstrip_prefix (lstrip s)) as (sp & Hl & _).
  apply well_spaced_lstrip in Hs. rewrite Hl in Hs.
  by apply well_spaced_app_l in Hs.
Qed.

Lemma tidy_strip_id s : tidy s → strip s = s.
Proof.
  intros [Hw He]. unfold strip.
  rewrite (lstrip_id s) by (by apply well_spaced_head). by apply rstrip_id.
Qed.

Lemma well_spaced_collapse b in_run s :
  well_spaced b s = true → (b = true → in_run = false) →
  collapse_spaces in_run s = s.
Proof.
  revert b in_run. induction s as [|c s IH]; intros b in_run; simpl; [done|].
  destruct (is_space c) eqn:Hc.
  - intros [[-> Hsp%bool_decide_eq_true]%andb_true_iff Hs]%andb_true_iff Hrun.
    rewrite Hrun by done. subst c. f_equal. by apply (IH false).
  - intros Hs _. f_equal. by apply (IH true).
Qed.

Lemma tidy_collapse_id s : tidy s → collapse_spaces false s = s.
Proof. intros [Hw _]. by apply (well_spaced_collapse false). Qed.

Lemma collapse_well_spaced in_run s :
  well_spaced (negb in_run) (collapse_spaces in_run s) = true.
Proof.
  revert in_run. induction s as [|c s IH]; intros in_run; simpl; [done|].
  destruct (is_space c) eqn:Hc.
  - pose proof (IH true) as IHt. simpl in IHt.
    destruct in_run; [done|]. simpl. by rewrite IHt.
  - simpl. rewrite Hc. apply (IH false).
Qed.

Lemma collapse_snoc_char in_run s c :
  is_space c = false →
  collapse_spaces in_run (s ++ [c]) = collapse_spaces in_run s ++ [c].
Proof.
  intros Hc. revert in_run. induction s as [|x s IH]; intros in_run; simpl.
  - by rewrite Hc.
  - destruct (is_space x); [destruct in_run|]; by rewrite IH.
Qed.

Lemma collapse_ends in_run s :
  ends_with_char s = true → ends_with_char (collapse_spaces in_run s) = true.
Proof.
  destruct s as [|c s _] using rev_ind; [done|].
  rewrite ends_with_char_snoc. intros Hc%negb_true_iff.
  by rewrite collapse_snoc_char, ends_with_char_snoc, Hc.
Qed.

(** The rule that [normalize_rule] works on after its first two steps. *)
Lemma tidy_collapse_strip s : tidy (collapse_spaces false (strip s)).
Proof.
  split.
  - pose proof (strip_head s) as Hh. destruct (strip s) as [|c t]; [done|].
    simpl. rewrite Hh. simpl. rewrite Hh. apply (collapse_well_spaced false).
  - apply collapse_ends, ends_with_char_rstrip.
Qed.

Lemma collapse_head s c t :
  is_space c = false →
  collapse_spaces false (c :: t) = c :: collapse_spaces false t.
Proof. intros Hc. simpl. by rewrite Hc. Qed.

(** In a well spaced text every white space character is a plain space. *)
Lemma well_spaced_plain b s c :
  well_spaced b s = true → c ∈ s → is_space c = true → c = " "%char.
Proof.
  revert b. induction s as [|x s IH]; intros b Hs Hin Hc;
    [by apply elem_of_nil in Hin|].
  simpl in Hs. apply elem_of_cons in Hin as [->|Hin].
  - rewrite Hc in Hs.
    by apply andb_true_iff in Hs
      as [[_ ?%bool_decide_eq_true]%andb_true_iff _].
  - destruct (is_space x); [|by eapply IH].
    apply andb_true_iff in Hs as [_ Hs]. by eapply IH.
Qed.

Lemma no_space_tidy s : Forall (λ c, is_space c = false) s → tidy s.
Proof.
  intros Hs. split.
  - generalize false. induction Hs as [|c s Hc _ IH]; intros b; simpl; [done|].
    rewrite Hc. apply IH.
  - destruct s as [|c s _] using rev_ind; [done|].
    rewrite ends_with_char_snoc. apply Forall_app in Hs as [_ Hc].
    apply (proj1 (Forall_singleton _ _)) in Hc. apply negb_true_iff. exact Hc.
Qed.
End WhiteSpace.

(* ===================================================================== *)
(** ** [split] and [join] *)
(* ===================================================================== *)

Section SplitJoin.
Import Str.
Implicit Types (s t p : text) (sep c : ascii) (l : list text).

Lemma split_no_sep sep s : Forall (λ p, sep ∉ p) (split sep s).
Proof.
  induction s as [|c s IH]; simpl.
  - repeat constructor. apply not_elem_of_nil.
  - destruct (decide (c = sep)) as [->|Hne].
    + constructor; [apply not_elem_of_nil|done].
    + destruct (split sep s) as [|p ps].
      * repeat constructor. by intros [?|?%elem_of_nil]%elem_of_cons.
      * apply Forall_cons in IH as [Hp Hps]. constructor; [|done].
        by intros [?|?]%elem_of_cons.
Qed.

Lemma split_without_sep sep p : sep ∉ p → split sep p = [p].
Proof.
  induction p as [|c p IH]; simpl; [done|]. intros Hnot.
  rewrite decide_False by (intros ->; apply Hnot; left).
  rewrite IH; [done|]. intros ?. apply Hnot. by right.
Qed.

Lemma split_app_sep sep p s :
  sep ∉ p → split sep (p ++ sep :: s) = p :: split sep s.
Proof.
  induction p as [|c p IH]; simpl; intros Hnot.
  - by rewrite decide_True.
  - rewrite decide_False by (intros ->; apply Hnot; left).
    rewrite IH; [done|]. intros ?. apply Hnot. by right.
Qed.

(** Splitting what was joined gives the pieces back. *)
Lemma split_join sep l :
  l ≠ [] → Forall (λ p, sep ∉ p) l → split sep (join [sep] l) = l.
Proof.
  intros Hne Hl. induction Hl as [|p l Hp Hl IH]; [done|].
  destruct l as [|q l].
  - simpl. by apply split_without_sep.
  - change (join [sep] (p :: q :: l)) with (p ++ sep :: join [sep] (q :: l)).
    rewrite split_app_sep by done. f_equal. by apply IH.
Qed.

Lemma split_first_app sep s t :
  sep ∉ s → split_first sep (s ++ sep :: t) = (s, t).
Proof.
  induction s as [|c s IH]; simpl; intros Hnot.
  - by rewrite decide_True.
  - rewrite decide_False by (intros ->; apply Hnot; left).
    rewrite IH; [done|]. intros ?. apply Hnot. by right.
Qed.

(** The pieces of a well spaced text are well spaced. *)
Lemma split_well_spaced sep b s :
  is_space sep = false → well_spaced b s = true →
  Forall (λ p, well_spaced true p = true) (split sep s).
Proof.
  intros Hsep. revert b. induction s as [|c s IH]; intros b Hs; simpl.
  - by repeat constructor.
  - simpl in Hs. destruct (decide (c = sep)) as [->|Hne].
    + rewrite Hsep in Hs. constructor; [done|]. by eapply IH.
    + destruct (is_space c) eqn:Hc.
      * apply andb_true_iff in Hs as [[_ Hsp]%andb_true_iff Hs].
        pose proof (IH _ Hs) as IH'.
        assert (Hfirst : match split sep s with
                         | p :: _ => well_spaced false p = true
                         | [] => True end).
        { clear -Hs Hsep. revert Hs. generalize false.
          induction s as [|x s IH]; intros b Hs; simpl; [done|].
          simpl in Hs. destruct (decide (x = sep)) as [->|Hne]; [done|].
          destruct (is_space x) eqn:Hx.
          - apply andb_true_iff in Hs as [Hb Hs]. specialize (IH _ Hs).
            destruct (split sep s); simpl; rewrite Hx, Hb; [done|].
            by rewrite IH.
          - specialize (IH _ Hs). destruct (split sep s); simpl; rewrite Hx;
              [done|]. by erewrite well_spaced_weaken. }
        destruct (split sep s) as [|p ps].
        { repeat constructor. simpl. by rewrite Hc, Hsp. }
        apply Forall_cons in IH' as [_ Hps]. constructor; [|done].
        simpl. by rewrite Hc, Hsp, Hfirst.
      * pose proof (IH _ Hs) as IH'. destruct (split sep s) as [|p ps].
        { repeat constructor. simpl. by rewrite Hc. }
        apply Forall_cons in IH' as [Hp Hps]. constructor; [|done].
        simpl. by rewrite Hc.
Qed.

Lemma join_nonempty sep l :
  l ≠ [] → Forall (λ p, p ≠ []) l → join [sep] l ≠ [].
Proof.
  intros Hne Hl. destruct Hl as [|p l Hp Hl]; [done|].
  destruct l; simpl; [done|]. by destruct p.
Qed.

(** Tidy pieces joined by a character that is not white space are tidy. *)
Lemma join_tidy sep l :
  is_space sep = false → l ≠ [] → Forall (λ p, tidy p ∧ p ≠ []) l →
  tidy (join [sep] l).
Proof.
  intros Hsep Hne Hl. induction Hl as [|p l [Hp Hpne] Hl IH]; [done|].
  destruct l as [|q l]; [done|].
  change (join [sep] (p :: q :: l)) with (p ++ sep :: join [sep] (q :: l)).
  destruct IH as [Hw He]; [done|]. destruct Hp as [Hpw _]. split.
  - apply well_spaced_sep; [done..|]. by eapply well_spaced_weaken.
  - rewrite ends_with_char_app by done.
    change (sep :: join [sep] (q :: l)) with ([sep] ++ join [sep] (q :: l)).
    rewrite ends_with_char_app; [done|].
    apply join_nonempty; [done|]. eapply Forall_impl; [exact Hl|].
    by intros ? [_ ?].
Qed.
End SplitJoin.

(* ===================================================================== *)
(** ** Normalizing a normalized rule *)
(* ===================================================================== *)

Section Renormalize.
Import Str.
Variable cfg : config.
Implicit Types (s t rule f : text) (c : ascii) (l : list text).

Lemma filter_all {A} (P : A → Prop) `{∀ x, Decision (P x)} (l : list A) :
  Forall P l → filter P l = l.
Proof.
  induction 1 as [|x l Hx _ IH]; [done|].
  by rewrite filter_cons, decide_True, IH.
Qed.

Lemma strip_keeps_out c s : c ∉ s → c ∉ strip s.
Proof.
  destruct (strip_infix s) as (sp1 & sp2 & Hs & _). intros Hnot Hin.
  apply Hnot. rewrite Hs. set_solver.
Qed.

Lemma strip_cons_char c s :
  is_space c = false → ∃ t, strip (c :: s) = c :: t.
Proof.
  intros Hc. unfold strip. simpl lstrip. rewrite Hc.
  destruct (rstrip_prefix (c :: s)) as (sp & Hs & Hsp).
  destruct (rstrip (c :: s)) as [|c' t]; simpl in Hs.
  - subst sp. apply Forall_cons in Hsp as [Hsp _]. congruence.
  - injection Hs as <- _. by exists t.
Qed.

Lemma startswith_head c s : startswith [c] s = true ↔ head s = Some c.
Proof.
  destruct s as [|x s]; simpl; [done|].
  destruct (decide (c = x)) as [->|Hne]; [done|]. split; [done|].
  by intros [= ->].
Qed.

Lemma modifier_list_tokens b s :
  well_spaced b s = true → Forall token (modifier_list s).
Proof.
  intros Hs. unfold modifier_list. apply Forall_fmap, Forall_forall.
  intros p [Hp Hin]%list_elem_of_filter.
  pose proof (split_well_spaced "," b s eq_refl Hs) as Hw.
  pose proof (split_no_sep "," s) as Hc.
  rewrite Forall_forall in Hw, Hc. simpl. split_and!.
  - eapply tidy_strip. by apply Hw.
  - by destruct (strip p).
  - by apply strip_keeps_out, Hc.
Qed.

(** Parsing the options that the modifier block has written gives them
    back. *)
Lemma modifier_list_join l :
  l ≠ [] → Forall token l → modifier_list (join (txt ",") l) = l.
Proof.
  intros Hne Hl. unfold modifier_list. change (txt ",") with [","%char].
  rewrite split_join; [|done|by eapply Forall_impl; [exact Hl|intros ? (_&_&?)]].
  rewrite filter_all.
  - rewrite <- (list_fmap_id l) at 2. apply Forall_fmap_ext.
    eapply Forall_impl; [exact Hl|]. intros t (Ht & _). by apply tidy_strip_id.
  - eapply Forall_impl; [exact Hl|]. intros t (Ht & Hn & _).
    rewrite tidy_strip_id by done. by destruct t.
Qed.

(** The three ways out of the modifier block. *)
Lemma filter_modifiers_cases rule :
  ("$"%char ∉ rule) ∧ filter_modifiers cfg rule = rule
  ∨ ∃ p0 m0,
      rule = p0 ++ "$"%char :: m0 ∧ ("$"%char ∉ p0)
      ∧ (valid_modifiers cfg (strip m0) = []
         ∧ filter_modifiers cfg rule = strip p0
         ∨ valid_modifiers cfg (strip m0) ≠ []
           ∧ filter_modifiers cfg rule
             = strip p0 ++ "$"%char
                 :: join (txt ",") (sorted_texts (valid_modifiers cfg (strip m0)))).
Proof.
  unfold filter_modifiers, contains. case_bool_decide as Hin; [|by left].
  right. destruct (split_first_spec "$" rule Hin) as [Hsplit Hnot].
  destruct (split_first "$" rule) as [p0 m0]. cbn [fst snd] in *.
  exists p0, m0. split_and!; [done..|].
  destruct (valid_modifiers cfg (strip m0)); [by left|by right].
Qed.

Lemma filter_modifiers_without_dollar rule :
  "$"%char ∉ rule → filter_modifiers cfg rule = rule.
Proof.
  intros Hnot. unfold filter_modifiers, contains.
  by rewrite bool_decide_eq_false_2.
Qed.

(** What the modifier block returns is tidy, and the block leaves it as it
    is; it starts like the rule, or with the [$]. *)
Lemma filter_modifiers_fixed rule :
  tidy rule →
  tidy (filter_modifiers cfg rule)
  ∧ filter_modifiers cfg (filter_modifiers cfg rule) = filter_modifiers cfg rule
  ∧ ∀ c, head (filter_modifiers cfg rule) = Some c →
         head rule = Some c ∨ c = "$"%char.
Proof.
  intros Hrule.
  destruct (filter_modifiers_cases rule)
    as [[Hnot ->]|(p0 & m0 & Hsplit & Hnot & Hcases)].
  { split_and!; [done|by apply filter_modifiers_without_dollar|by left]. }
  destruct Hrule as [Hw He].
  assert (Hp0 : well_spaced false p0 = true).
  { rewrite Hsplit in Hw. by apply well_spaced_app_l in Hw. }
  assert (Hm0 : well_spaced true m0 = true).
  { rewrite Hsplit in Hw. by apply well_spaced_app_r in Hw. }
  assert (Hpat : tidy (strip p0)) by (by eapply tidy_strip).
  assert (Hpat_not : "$"%char ∉ strip p0) by (by apply strip_keeps_out).
  assert (Hhead : ∀ c, head (strip p0) = Some c → head rule = Some c).
  { intros c. rewrite Hsplit. destruct p0 as [|c0 p0]; [done|].
    apply well_spaced_head in Hp0.
    destruct (strip_cons_char c0 p0 Hp0) as [t ->]. done. }
  pose proof (modifier_list_tokens false (strip m0)
                (proj1 (tidy_strip _ _ Hm0))) as Htok.
  unfold valid_modifiers in Hcases.
  set (tokens := modifier_list (strip m0)) in *.
  set (allowed := λ m : text, mod_name m ∈ supported_modifiers cfg) in *.
  destruct Hcases as [[Evalid ->]|[Evalid ->]].
  { split_and!; [done|by apply filter_modifiers_without_dollar|].
    intros c Hc. left. by apply Hhead. }
  set (sv := sorted_texts (filter allowed tokens)).
  assert (Hperm : sv ≡ₚ filter allowed tokens) by apply sorted_texts_Permutation.
  assert (Hsv : Forall (λ t, token t ∧ allowed t) sv).
  { rewrite Hperm. apply Forall_forall.
    intros t [Ha Ht]%list_elem_of_filter. split; [|done].
    rewrite Forall_forall in Htok. by apply Htok. }
  assert (Hsv_ne : sv ≠ []).
  { intros E. rewrite E in Hperm. by apply Permutation_nil_l in Hperm. }
  assert (Hsv_tok : Forall token sv)
    by (eapply Forall_impl; [exact Hsv|]; by intros ? [? _]).
  assert (Hjoin : tidy (join (txt ",") sv)).
  { apply (join_tidy ","); [done..|]. eapply Forall_impl; [exact Hsv_tok|].
    by intros t (? & ? & _). }
  assert (Hjoin_ne : join (txt ",") sv ≠ []).
  { apply (join_nonempty ","); [done|]. eapply Forall_impl; [exact Hsv_tok|].
    by intros t (_ & ? & _). }
  split_and!.
  - destruct Hpat as [Hpw _], Hjoin as [Hjw Hje]. split.
    + apply well_spaced_sep; [done..|]. by eapply well_spaced_weaken.
    + rewrite ends_with_char_app by done.
      change ("$"%char :: join (txt ",") sv) with (["$"%char] ++ join (txt ",") sv).
      by rewrite ends_with_char_app.
  - unfold filter_modifiers, contains.
    rewrite bool_decide_eq_true_2 by set_solver.
    rewrite split_first_app by done.
    rewrite (tidy_strip_id (strip p0)), (tidy_strip_id (join _ _)) by done.
    unfold valid_modifiers. rewrite modifier_list_join by done.
    fold allowed. rewrite filter_all
      by (eapply Forall_impl; [exact Hsv|]; by intros ? [_ ?]).
    destruct sv as [|t ts] eqn:Esv; [done|]. rewrite <- Esv.
    rewrite (sorted_texts_sorted_id sv); [done|]. apply sorted_texts_Sorted.
  - intros c. destruct (strip p0) as [|c0 t] eqn:Ep.
    + simpl. intros [= <-]. by right.
    + simpl. intros [= <-]. left. by apply Hhead.
Qed.
End Renormalize.

Section NormalizeTwice.
Import Str.
Variable cfg : config.
Implicit Types (s r raw : text) (c : ascii).

Lemma host_char_plain c :
  Re.is_host_char c = true → is_space c = false ∧ c ≠ "$"%char.
Proof.
  destruct c as [[] [] [] [] [] [] [] []]; vm_compute; intros H;
    try discriminate H; by split.
Qed.

Lemma letter_host_char c : Re.is_letter c = true → Re.is_host_char c = true.
Proof. unfold Re.is_host_char. by intros ->. Qed.

Lemma host_like_chars d :
  host_like d → Forall (λ c, Re.is_host_char c = true) d.
Proof.
  intros (a & b & -> & _ & Ha & _ & Hb). apply Forall_app. split; [done|].
  constructor; [done|]. eapply Forall_impl; [exact Hb|]. apply letter_host_char.
Qed.

(** What a rule must be like for [normalize_rule] to return it as it is. *)
Lemma normalize_rule_fixed r :
  tidy r → r ≠ [] →
  head r ≠ Some "!"%char → head r ≠ Some "#"%char →
  filter_modifiers cfg r = r →
  (format_standardize cfg = true → convert_to_pipe_format r = r) →
  normalize_rule cfg r = Some r.
Proof.
  intros Ht Hne Hbang Hhash Hfm Hconv. unfold normalize_rule.
  rewrite (tidy_strip_id r Ht).
  assert (truthy r = true) as -> by (by destruct r).
  assert (startswith (txt "!") r = false) as ->.
  { apply not_true_is_false. by intros ?%startswith_head. }
  assert (startswith (txt "#") r = false) as ->.
  { apply not_true_is_false. by intros ?%startswith_head. }
  simpl. rewrite (tidy_collapse_id r Ht), Hfm.
  destruct (format_standardize cfg); [by rewrite Hconv|done].
Qed.

(** The rules that [convert_to_pipe_format] builds. *)
Lemma rebuilt_rule_plain (pre d : text) :
  pre = txt "||" ∨ pre = txt "@@||" → host_like d →
  Forall (λ c, is_space c = false ∧ c ≠ "$"%char) (pre ++ d ++ txt "^").
Proof.
  intros Hpre Hd%host_like_chars. apply Forall_app. split.
  - destruct Hpre as [-> | ->]; by repeat constructor.
  - apply Forall_app. split; [|by repeat constructor].
    eapply Forall_impl; [exact Hd|]. apply host_char_plain.
Qed.

Lemma normalize_rule_rebuilt (pre d : text) :
  pre = txt "||" ∨ pre = txt "@@||" → host_like d →
  tidy (pre ++ d ++ txt "^")
  ∧ normalize_rule cfg (pre ++ d ++ txt "^") = Some (pre ++ d ++ txt "^").
Proof.
  intros Hpre Hd. pose proof (rebuilt_rule_plain pre d Hpre Hd) as Hplain.
  assert (Ht : tidy (pre ++ d ++ txt "^")).
  { apply no_space_tidy. eapply Forall_impl; [exact Hplain|]. by intros ? [? _]. }
  split; [done|]. apply normalize_rule_fixed; [done|..].
  - destruct Hpre as [-> | ->]; done.
  - destruct Hpre as [-> | ->]; done.
  - destruct Hpre as [-> | ->]; done.
  - apply filter_modifiers_without_dollar. intros Hin.
    rewrite Forall_forall in Hplain. by destruct (Hplain _ Hin).
  - intros _. apply convert_keeps_pipe_form.
    + destruct Hpre as [-> | ->];
        [left; by exists (d ++ txt "^") | right; by exists (d ++ txt "^")].
    + exists (pre ++ d). by rewrite <- app_assoc.
Qed.

(** What [normalize_rule] returns is tidy and, unless it is empty, a rule
    that [normalize_rule] returns as it is. *)
Lemma normalize_rule_result raw r :
  normalize_rule cfg raw = Some r →
  tidy r ∧ (r ≠ [] → normalize_rule cfg r = Some r).
Proof.
  intros H. unfold normalize_rule in H. set (x := strip raw) in H.
  destruct (negb (truthy x) || startswith (txt "!") x || startswith (txt "#") x)
    eqn:Hskip; [done|].
  apply orb_false_iff in Hskip as [[Hx Hbang]%orb_false_iff Hhash].
  revert H.
  set (rule := collapse_spaces false x).
  assert (Hrule : tidy rule) by apply tidy_collapse_strip.
  assert (Hhead : head rule = head x).
  { unfold rule. pose proof (strip_head raw) as Hh. fold x in Hh.
    destruct x as [|c t]; [done|]. by rewrite collapse_head. }
  destruct (filter_modifiers_fixed cfg rule Hrule) as (Hf & Hfix & Hfhead).
  set (f := filter_modifiers cfg rule) in *.
  assert (Hfixed : (format_standardize cfg = true → convert_to_pipe_format f = f) →
                   tidy f ∧ (f ≠ [] → normalize_rule cfg f = Some f)).
  { intros Hconv. split; [done|]. intros Hne.
    apply normalize_rule_fixed; [done..| | |done|done].
    - intros Hc. destruct (Hfhead _ Hc) as [Hr|]; [|done].
      rewrite Hhead in Hr. apply startswith_head in Hr.
      change [ "!"%char ] with (txt "!") in Hr. congruence.
    - intros Hc. destruct (Hfhead _ Hc) as [Hr|]; [|done].
      rewrite Hhead in Hr. apply startswith_head in Hr.
      change [ "#"%char ] with (txt "#") in Hr. congruence. }
  destruct (format_standardize cfg) eqn:Hfs; intros [= <-]; [|by apply Hfixed].
  destruct (convert_shape f) as [Hsame|(pre & d & post & _ & Hd & Hres)].
  - rewrite Hsame. by apply Hfixed.
  - destruct Hres as [[_ ->]|[_ ->]].
    + destruct (normalize_rule_rebuilt (txt "@@||") d) as [Ht Hn]; auto.
    + destruct (normalize_rule_rebuilt (txt "||") d) as [Ht Hn]; auto.
Qed.

(** The loop of step 2 of [run] on its own output. *)
Lemma normalize_all_elem raw_rules r :
  r ∈ normalize_all cfg raw_rules →
  r ≠ [] ∧ tidy r ∧ normalize_rule cfg r = Some r.
Proof.
  unfold normalize_all. intros (raw & _ & Hr)%list_elem_of_omap.
  destruct (normalize_rule cfg raw) as [n|] eqn:E; [|done]. simpl in Hr.
  destruct (truthy n) eqn:Hn; [|done]. injection Hr as ->.
  destruct (normalize_rule_result raw r E) as [Ht Hfix].
  assert (r ≠ []) by (by destruct r). auto.
Qed.

Lemma normalize_all_fixed (rules : list text) :
  (∀ r, r ∈ rules → r ≠ [] ∧ normalize_rule cfg r = Some r) →
  normalize_all cfg rules = rules.
Proof.
  unfold normalize_all. induction rules as [|r rules IH]; intros H; [done|].
  cbn [omap list_omap]. destruct (H r) as [Hne ->]; [left|].
  simpl. assert (truthy r = true) as -> by (by destruct r).
  f_equal. apply IH. intros r' Hr'. apply H. by right.
Qed.
End NormalizeTwice.

(** [normalize_rule] is idempotent on rules: whatever non-empty rule it
    returns for a line, it returns that rule unchanged when given the rule as a
    line. (For a line like ["$unknown"] it returns the empty string, which
    [run] drops and which, as a line, is blank.) *)
Theorem normalize_rule_idempotent (cfg : config) (raw r : text) :
  normalize_rule cfg raw = Some r → r ≠ [] → normalize_rule cfg r = Some r.
Proof. intros H Hne. by apply (normalize_rule_result cfg raw r H). Qed.

Lemma normalize_rule_idempotent_witness :
  normalize_rule default_config (txt "||bad.com^$domain=a.com,important")
  = Some (txt "||bad.com^$domain=a.com,important").
Proof.
  apply (normalize_rule_idempotent default_config
           (txt "  ||bad.com^ $ important ,, domain=a.com,evil ")).
  - vm_compute. reflexivity.
  - vm_compute. discriminate.
Defined.

(** A rule that [normalize_rule] returns fits on one line of the output
    file: it has no newline, its only white space is single spaces between
    other characters, and stripping it or collapsing its white space again
    changes nothing. *)
Theorem normalize_rule_is_tidy (cfg : config) (raw r : text) :
  normalize_rule cfg raw = Some r →
  (newline ∉ r)
  ∧ (∀ c, c ∈ r → Str.is_space c = true → c = " "%char)
  ∧ Str.strip r = r
  ∧ Str.collapse_spaces false r = r.
Proof.
  intros [Ht _]%normalize_rule_result. split_and!.
  - intros Hin. destruct Ht as [Hw _].
    by pose proof (well_spaced_plain _ _ _ Hw Hin eq_refl).
  - intros c. destruct Ht as [Hw _]. by apply well_spaced_plain with (b := false).
  - by apply tidy_strip_id.
  - by apply tidy_collapse_id.
Qed.

Lemma normalize_rule_is_tidy_witness :
  let r := txt "||bad.com^$domain=a.com,important" in
  (newline ∉ r)
  ∧ (∀ c, c ∈ r → Str.is_space c = true → c = " "%char)
  ∧ Str.strip r = r
  ∧ Str.collapse_spaces false r = r.
Proof.
  apply (normalize_rule_is_tidy default_config
           (txt "  ||bad.com^ $ important ,, domain=a.com,evil ")).
  vm_compute. reflexivity.
Defined.

(* ===================================================================== *)
(** ** Optimizing an optimized file *)
(* ===================================================================== *)

Section OptimizeTwice.
Import Str.
Variable cfg : config.

Lemma normalize_rule_comment (line : text) :
  txt "!" `prefix_of` line → normalize_rule cfg line = None.
Proof.
  intros [s ->]. unfold normalize_rule.
  destruct (strip_cons_char "!"%char s eq_refl) as [t Ht].
  change (txt "!" ++ s) with ("!"%char :: s). by rewrite Ht.
Qed.

Lemma normalize_all_comments (lines : list text) :
  Forall (λ line, txt "!" `prefix_of` line) lines → normalize_all cfg lines = [].
Proof.
  unfold normalize_all. induction 1 as [|l lines Hl _ IH]; [done|].
  cbn [omap list_omap]. by rewrite (normalize_rule_comment l Hl).
Qed.

Lemma hosts_to_remove_ext (l1 l2 : list text) :
  (∀ r, r ∈ l1 ↔ r ∈ l2) → hosts_to_remove l1 = hosts_to_remove l2.
Proof.
  intros Heq. apply set_eq. intros h. rewrite !hosts_to_remove_spec.
  rewrite Heq. by setoid_rewrite Heq.
Qed.

Lemma converged_stable (rules : list text) :
  NoDup rules →
  (domain_convergence_on cfg = true → hosts_to_remove rules = ∅) →
  removed_subdomains cfg rules = [] ∧ converged cfg rules ≡ₚ rules.
Proof.
  intros Hnd Hnone.
  assert (Hrem : removed_subdomains cfg rules = []).
  { unfold removed_subdomains. destruct (domain_convergence_on cfg); [|done].
    by rewrite Hnone, elements_empty. }
  split; [done|].
  pose proof (converged_Permutation cfg rules Hnd) as Hperm.
  by rewrite Hrem in Hperm.
Qed.

(** The stages of [run] on the sorted rules that an earlier pass produced. *)
Lemma stages_on_output (raw_rules head : list text) (w : world) :
  Forall (λ line, txt "!" `prefix_of` line) head →
  let final := converged cfg (first_occurrences (normalize_all cfg raw_rules)) in
  let out := sorted_texts final in
  normalize_all cfg (head ++ out) = out
  ∧ ∃ final' w',
      (deduplicate_rules out ≫= domain_convergence cfg) w = (Returns final', w')
      ∧ sorted_texts final' = out
      ∧ removed_log w' = removed_log w.
Proof.
  intros Hhead final out.
  assert (Helem : ∀ r, r ∈ out ↔ r ∈ final).
  { intros r. unfold out. by rewrite sorted_texts_Permutation. }
  assert (Hfixed : ∀ r, r ∈ out → r ≠ [] ∧ normalize_rule cfg r = Some r).
  { intros r [Hr _]%Helem%converged_elem.
    apply first_occurrences_elem, normalize_all_elem in Hr. naive_solver. }
  assert (Hnd : NoDup out).
  { unfold out. rewrite sorted_texts_Permutation.
    pose proof (converged_NoDup cfg _
                  (first_occurrences_NoDup (normalize_all cfg raw_rules))) as H.
    by apply NoDup_app in H as (_ & _ & H). }
  assert (Hnone : domain_convergence_on cfg = true → hosts_to_remove out = ∅).
  { intros Hon. rewrite (hosts_to_remove_ext out final Helem).
    by apply hosts_to_remove_converged. }
  destruct (converged_stable out Hnd Hnone) as [Hrem Hperm].
  split.
  - unfold normalize_all at 1. rewrite omap_app.
    fold (normalize_all cfg head) (normalize_all cfg out).
    by rewrite normalize_all_comments, normalize_all_fixed.
  - eexists (converged cfg out), _. rewrite bind_run, deduplicate_rules_run.
    rewrite first_occurrences_distinct, later_occurrences_distinct by done.
    split; [apply domain_convergence_run|]. split.
    + rewrite (sorted_texts_canonical _ _ Hperm). by apply sorted_texts_sorted_id,
        sorted_texts_Sorted.
    + destruct (domain_convergence_on cfg); [|done].
      rewrite after_removal_log, Hrem. unfold log_entries. simpl.
      by rewrite app_nil_r.
Qed.
End OptimizeTwice.

(** Optimizing is idempotent. Take the rules that the stages of [run] return
    for some lines, in the order in which [save_results] writes them, after
    any block of comment lines. The loop of step 2 of [run] reads exactly
    these rules back, [deduplicate_rules] and [domain_convergence] remove
    none of them and append nothing to the removal log, and sorting what they
    return gives the same lines again. *)
Theorem optimizing_the_output_changes_nothing
    (cfg : config) (raw_rules head final : list text) (w0 w1 w : world) :
  (deduplicate_rules (normalize_all cfg raw_rules) ≫= domain_convergence cfg) w0
  = (Returns final, w1) →
  Forall (λ line, txt "!" `prefix_of` line) head →
  normalize_all cfg (head ++ sorted_texts final) = sorted_texts final
  ∧ ∃ final' w',
      (deduplicate_rules (sorted_texts final) ≫= domain_convergence cfg) w
      = (Returns final', w')
      ∧ sorted_texts final' = sorted_texts final
      ∧ removed_log w' = removed_log w.
Proof.
  rewrite bind_run, deduplicate_rules_run, domain_convergence_run.
  intros [= <- _] Hhead. by apply stages_on_output.
Qed.

Lemma optimizing_the_output_changes_nothing_witness :
  let final := [txt "||b.com^$important"; txt "||a.com^"] in
  let head := header_lines (txt "1") (txt "2") (txt "4") (txt "2") (txt "50.00") in
  normalize_all default_config (head ++ sorted_texts final) = sorted_texts final
  ∧ ∃ final' w',
      (deduplicate_rules (sorted_texts final)
         ≫= domain_convergence default_config) sample_world
      = (Returns final', w')
      ∧ sorted_texts final' = sorted_texts final
      ∧ removed_log w' = removed_log sample_world.
Proof.
  apply (optimizing_the_output_changes_nothing default_config
           [txt " ||b.com^ $important"; txt "||a.com^"; txt "# c";
            txt "||x.a.com^"; txt "||a.com^"]
           _ _ sample_world
           (after_removal "subdomains" [txt "||x.a.com^"]
              (with_stats <["converged_count" := VInt 1]>
                 (after_removal "duplicates" [txt "||a.com^"]
                    (with_stats <["duplicate_count" := VInt 1]> sample_world))))).
  - vm_compute. reflexivity.
  - unfold header_lines. repeat constructor; by eexists.
Defined.

(* ===================================================================== *)
(** ** The configuration dictionary *)
(* ===================================================================== *)

Section ConfigFacts.
Context {V : Type}.
Implicit Types (k key : text) (v value : yaml V) (b d base update : list (text * yaml V)).

Lemma yaml_induction (P : yaml V → Prop) :
  (∀ x, P (Other x)) →
  (∀ d, Forall (λ kv, P kv.2) d → P (Mapping d)) →
  ∀ v, P v.
Proof.
  intros HO HM. fix IH 1. intros [x|d]; [apply HO|]. apply HM.
  induction d as [|[k v] d IHd]; constructor; [apply IH|apply IHd].
Qed.

Lemma updated_mappings b update :
  updated (Mapping update) (Some (Mapping b)) = Mapping (update_config b update).
Proof. done. Qed.

Lemma updated_other value old :
  (∀ b update, old = Some (Mapping b) → value ≠ Mapping update) →
  updated value old = value.
Proof.
  intros H. destruct value as [x|u]; destruct old as [[y|b]|]; try done.
  by destruct (H b u).
Qed.

Lemma update_config_cons base k v update :
  update_config base ((k, v) :: update)
  = update_config (set_item k (updated v (item k base)) base) update.
Proof. done. Qed.

Lemma item_None k d : item k d = None ↔ k ∉ d.*1.
Proof.
  induction d as [|[k' v'] d IH]; simpl.
  { split; [intros _; apply not_elem_of_nil|done]. }
  rewrite not_elem_of_cons. case_decide; naive_solver.
Qed.

Lemma item_elem k v d : NoDup d.*1 → (k, v) ∈ d → item k d = Some v.
Proof.
  induction d as [|[k' v'] d IH]; simpl; [by intros _ ?%elem_of_nil|].
  intros [Hk Hd]%NoDup_cons [[= -> ->]|Hin]%elem_of_cons.
  - by rewrite decide_True.
  - rewrite decide_False; [by apply IH|]. intros ->. apply Hk.
    apply list_elem_of_fmap. by exists (k, v).
Qed.

Lemma item_set_item k key value d :
  item k (set_item key value d)
  = if decide (key = k) then Some value else item k d.
Proof.
  induction d as [|[k' v'] d IH]; simpl.
  - repeat case_decide; congruence.
  - repeat (case_decide; simpl); congruence.
Qed.

Lemma set_item_same k v d : item k d = Some v → set_item k v d = d.
Proof.
  induction d as [|[k' v'] d IH]; simpl; [done|].
  case_decide; [by intros [= ->]; subst|]. intros ?. f_equal. by apply IH.
Qed.

Lemma set_item_keys k v d :
  (set_item k v d).*1 = if decide (k ∈ d.*1) then d.*1 else d.*1 ++ [k].
Proof.
  induction d as [|[k' v'] d IH]; [done|].
  cbn [set_item]. destruct (decide (k' = k)) as [->|Hk'].
  - rewrite !fmap_cons. cbn [fst]. rewrite decide_True; [done|left].
  - rewrite !fmap_cons, IH. cbn [fst]. destruct (decide (k ∈ d.*1)) as [Hin|Hin].
    + rewrite decide_True; [done|]. by right.
    + rewrite decide_False; [done|]. rewrite not_elem_of_cons. naive_solver.
Qed.

Lemma update_config_item base update k :
  NoDup update.*1 →
  item k (update_config base update)
  = match item k update with
    | Some v => Some (updated v (item k base))
    | None => item k base
    end.
Proof.
  revert base. induction update as [|[k0 v0] update IH]; intros base; [done|].
  simpl fmap. intros [Hk0 Hnd]%NoDup_cons.
  rewrite update_config_cons, IH by done. simpl item. case_decide as Hk.
  - subst k0. apply item_None in Hk0. rewrite Hk0, item_set_item.
    by rewrite decide_True.
  - rewrite item_set_item, decide_False by done. done.
Qed.

Lemma filter_agree {A} (P Q : A → Prop) `{∀ x, Decision (P x)}
    `{∀ x, Decision (Q x)} (l : list A) :
  (∀ x, x ∈ l → P x ↔ Q x) → filter P l = filter Q l.
Proof.
  induction l as [|x l IH]; intros Hl; [done|].
  destruct (decide (P x)) as [HP|HP].
  - rewrite !filter_cons_True; [|by apply Hl; [left|]|done].
    f_equal. apply IH. intros y Hy. apply Hl. by right.
  - rewrite !filter_cons_False; [|rewrite <- Hl; [done|left]|done].
    apply IH. intros y Hy. apply Hl. by right.
Qed.

Lemma update_config_keys base update :
  NoDup update.*1 →
  (update_config base update).*1
  = base.*1 ++ filter (λ k, k ∉ base.*1) update.*1.
Proof.
  revert base. induction update as [|[k0 v0] update IH]; intros base.
  - intros _. simpl. by rewrite app_nil_r.
  - rewrite fmap_cons. cbn [fst]. intros [Hk0 Hnd]%NoDup_cons.
    rewrite update_config_cons, IH, set_item_keys by done.
    destruct (decide (k0 ∈ base.*1)) as [Hin|Hin].
    + by rewrite filter_cons_False by naive_solver.
    + rewrite filter_cons_True by done. rewrite <- app_assoc. simpl.
      do 2 f_equal. apply filter_agree. intros k Hk.
      rewrite not_elem_of_app, list_elem_of_singleton. split; [naive_solver|].
      intros ?. split; [done|]. by intros ->.
Qed.

Lemma update_config_fixed b l :
  (∀ k v, (k, v) ∈ l → ∃ x, item k b = Some x ∧ updated v (Some x) = x) →
  update_config b l = b.
Proof.
  induction l as [|[k v] l IH]; intros H; [done|].
  rewrite update_config_cons. destruct (H k v) as (x & Hx & Hupd); [left|].
  rewrite Hx, Hupd, (set_item_same k x b Hx). apply IH.
  intros k' v' Hin. apply H. by right.
Qed.

Lemma well_formed_Mapping d :
  well_formed (Mapping d) = true
  ↔ NoDup d.*1 ∧ Forall (λ kv, well_formed kv.2 = true) d.
Proof.
  simpl. rewrite andb_true_iff, bool_decide_eq_true, forallb_forall.
  rewrite Forall_forall. by setoid_rewrite list_elem_of_In.
Qed.

Lemma updated_self v : well_formed v = true → updated v (Some v) = v.
Proof.
  induction v as [x|d IH] using yaml_induction; [done|].
  intros [Hnd Hwf]%well_formed_Mapping. rewrite updated_mappings. f_equal.
  apply update_config_fixed. intros k v Hin. exists v.
  split; [by apply item_elem|].
  rewrite Forall_forall in IH, Hwf. by apply (IH (k, v)), (Hwf (k, v)).
Qed.

Lemma updated_twice v old :
  well_formed v = true → updated v (Some (updated v old)) = updated v old.
Proof.
  revert old. induction v as [x|d IH] using yaml_induction; intros old Hwf.
  { by destruct old as [[|]|]. }
  assert (Hself := updated_self (Mapping d) Hwf).
  apply well_formed_Mapping in Hwf as [Hnd Hwf].
  destruct old as [[y|b]|]; [done| |done].
  rewrite !updated_mappings. f_equal. apply update_config_fixed.
  intros k v Hin. rewrite update_config_item, (item_elem k v d) by done.
  eexists. split; [done|].
  rewrite Forall_forall in IH, Hwf. by apply (IH (k, v)), (Hwf (k, v)).
Qed.

Lemma update_config_twice base update :
  well_formed (Mapping update) = true →
  update_config (update_config base update) update = update_config base update.
Proof.
  intros Hwf. pose proof (updated_twice (Mapping update) (Some (Mapping base)) Hwf) as H.
  rewrite !updated_mappings in H. by injection H.
Qed.
End ConfigFacts.

(** What [update_config] leaves under a key, for an update with every key
    once (a dictionary): a key that the update does not have keeps what the
    base held; where both hold a dictionary the result is the base's one,
    updated by the same function; in every other case the update's value
    replaces what was there, a dictionary of the base included. *)
Theorem update_config_per_key {V : Type}
    (base update : list (text * yaml V)) (key : text) :
  NoDup update.*1 →
  (item key update = None →
   item key (update_config base update) = item key base)
  ∧ (∀ u b, item key update = Some (Mapping u) →
            item key base = Some (Mapping b) →
            item key (update_config base update)
            = Some (Mapping (update_config b u)))
  ∧ (∀ value, item key update = Some value →
              (∀ u b, ¬ (value = Mapping u ∧ item key base = Some (Mapping b))) →
              item key (update_config base update) = Some value).
Proof.
  intros Hnd. split_and!.
  - intros Hk. by rewrite update_config_item, Hk.
  - intros u b Hu Hb. by rewrite update_config_item, Hu, Hb.
  - intros value Hv Hnot. rewrite update_config_item, Hv by done.
    rewrite updated_other; [done|]. intros b u Hb ->. by apply (Hnot u b).
Qed.

Lemma update_config_per_key_witness :
  let base := default_config_dict in
  let update := sample_config_file in
  let key := txt "input" in
  (item key update = None →
   item key (update_config base update) = item key base)
  ∧ (∀ u b, item key update = Some (Mapping u) →
            item key base = Some (Mapping b) →
            item key (update_config base update)
            = Some (Mapping (update_config b u)))
  ∧ (∀ value, item key update = Some value →
              (∀ u b, ¬ (value = Mapping u ∧ item key base = Some (Mapping b))) →
              item key (update_config base update) = Some value).
Proof.
  apply (update_config_per_key default_config_dict sample_config_file
           (txt "input")).
  apply (bool_decide_unpack _). vm_compute. reflexivity.
Defined.

(** The keys of the dictionary after [update_config], in order: those of the
    base, each in its place, then the new keys in the order of the update.
    No key of the base is lost, and no key comes twice. *)
Theorem update_config_key_order {V : Type} (base update : list (text * yaml V)) :
  NoDup update.*1 →
  (update_config base update).*1
  = base.*1 ++ filter (λ k, k ∉ base.*1) update.*1
  ∧ (NoDup base.*1 → NoDup (update_config base update).*1).
Proof.
  intros Hnd. rewrite update_config_keys by done. split; [done|].
  intros Hbase. apply NoDup_app. split_and!; [done| |by apply NoDup_filter].
  intros k Hk [Hnot _]%list_elem_of_filter. by apply Hnot.
Qed.

Lemma update_config_key_order_witness :
  (update_config default_config_dict sample_config_file).*1
  = default_config_dict.*1
    ++ filter (λ k, k ∉ default_config_dict.*1) sample_config_file.*1
  ∧ (NoDup default_config_dict.*1 →
     NoDup (update_config default_config_dict sample_config_file).*1).
Proof.
  apply (update_config_key_order default_config_dict sample_config_file).
  apply (bool_decide_unpack _). vm_compute. reflexivity.
Defined.

(** [update_config] is idempotent: applying the same update, a dictionary
    with every key once at every depth, a second time changes nothing. *)
Theorem update_config_idempotent {V : Type} (base update : list (text * yaml V)) :
  well_formed (Mapping update) = true →
  update_config (update_config base update) update = update_config base update.
Proof. apply update_config_twice. Qed.

Lemma update_config_idempotent_witness :
  update_config (update_config default_config_dict sample_config_file)
                sample_config_file
  = update_config default_config_dict sample_config_file.
Proof.
  apply (update_config_idempotent default_config_dict sample_config_file).
  vm_compute. reflexivity.
Defined.

(** [load_config] never loses a default: whatever is at the path (no file, a
    file that cannot be read or parsed, an empty document, a document that is
    no dictionary, or a dictionary), every key of [default_config] is a key of
    the configuration, and a key that the file does not set at top level
    holds its default. Only a dictionary that has the key can change it. *)
Theorem load_config_keeps_defaults {V : Type}
    (default_config : list (text * yaml V)) (file : config_file V) (key : text) :
  (∀ loaded, file = Loaded (Some (Mapping loaded)) → NoDup loaded.*1) →
  (is_Some (item key default_config) →
   is_Some (item key (load_config default_config file)))
  ∧ ((∀ loaded, file = Loaded (Some (Mapping loaded)) → item key loaded = None) →
     item key (load_config default_config file) = item key default_config).
Proof.
  intros Hdict. destruct file as [| |[[x|loaded]|]]; try done.
  specialize (Hdict loaded eq_refl). unfold load_config.
  destruct (truthy loaded); [|done]. split.
  - intros [old Hold]. rewrite update_config_item, Hold by done.
    by destruct (item key loaded).
  - intros Hkey. by rewrite update_config_item, (Hkey loaded eq_refl).
Qed.

Lemma load_config_keeps_defaults_witness :
  let file := Loaded (Some (Mapping sample_config_file)) in
  let key := txt "format_standardize" in
  (is_Some (item key default_config_dict) →
   is_Some (item key (load_config default_config_dict file)))
  ∧ ((∀ loaded, file = Loaded (Some (Mapping loaded)) → item key loaded = None) →
     item key (load_config default_config_dict file)
     = item key default_config_dict).
Proof.
  apply (load_config_keeps_defaults default_config_dict
           (Loaded (Some (Mapping sample_config_file)))
           (txt "format_standardize")).
  intros loaded [= <-]. apply (bool_decide_unpack _). vm_compute. reflexivity.
Defined.

(* ===================================================================== *)
(** ** The report of [print_statistics] *)
(* ===================================================================== *)

Section Report.

Lemma stat_then {A} (key : string) (m : M A) (w : world) :
  (stat key;; m) w
  = match stats w !! key with
    | Some _ => m w
    | None => (Raises (KeyError (txt key)), w)
    end.
Proof. rewrite bind_run, stat_run. by destruct (stats w !! key). Qed.

Lemma print_statistics_run (w : world) :
  Forall (λ key, is_Some (stats w !! key))
         ["original_count"; "valid_count"; "duplicate_count"; "converged_count";
          "final_count"; "reduction_percent"; "duration_seconds"]%string →
  print_statistics w = (Returns (), w).
Proof.
  intros H. unfold print_statistics.
  repeat (apply Forall_cons in H as [[? Hkey] H];
          rewrite stat_then, Hkey; clear Hkey).
  done.
Qed.

Lemma print_statistics_fresh (w : world) :
  (init;; print_statistics) w
  = (Raises (KeyError (txt "reduction_percent")),
     with_stats (λ _, init_stats (ticks w)) (with_tick w)).
Proof.
  rewrite bind_run, init_run. cbv beta iota. unfold print_statistics.
  by rewrite !stat_then.
Qed.
End Report.

(** [print_statistics] reports what [save_statistics] stored. On an
    optimizer whose counters are set, [save_statistics] followed by
    [print_statistics] returns, and the report changes nothing; on a fresh
    optimizer the report raises [KeyError] for [reduction_percent], the key
    that [__init__] leaves out. *)
Theorem print_statistics_needs_save_statistics
    (w : world) (o v d c : Z) (t0 : nat) :
  has_counters (stats w) o v d c t0 →
  (∃ w', save_statistics w = (Returns (), w')
         ∧ print_statistics w' = (Returns (), w'))
  ∧ ∀ w0, (init;; print_statistics) w0
          = (Raises (KeyError (txt "reduction_percent")),
             with_stats (λ _, init_stats (ticks w0)) (with_tick w0)).
Proof.
  intros Hc. split; [|apply print_statistics_fresh].
  eexists. split; [by apply (save_statistics_run w o v d c t0)|].
  apply print_statistics_run. cbn [stats with_statistics with_stats].
  destruct Hc as (Ho & Hv & Hd & Hcv & Ht). unfold final_stats.
  repeat (apply Forall_cons; split; [by simplify_map_eq|]). constructor.
Qed.

Lemma print_statistics_needs_save_statistics_witness :
  (∃ w', save_statistics counted_world = (Returns (), w')
         ∧ print_statistics w' = (Returns (), w'))
  ∧ ∀ w0, (init;; print_statistics) w0
          = (Raises (KeyError (txt "reduction_percent")),
             with_stats (λ _, init_stats (ticks w0)) (with_tick w0)).
Proof.
  apply (print_statistics_needs_save_statistics counted_world 4 3 0 0 0).
  by repeat split.
Defined.

(* ===================================================================== *)
(** ** The option list of a rule, piece by piece *)
(* ===================================================================== *)

Section OptionPieces.
Import Str.
Variable cfg : config.
Implicit Types (s m l r sp : text) (o : text * option text).

Lemma blank_no_comma sp : blank sp → ","%char ∉ sp.
Proof.
  intros Hsp Hin. unfold blank in Hsp. rewrite Forall_forall in Hsp.
  by pose proof (Hsp _ Hin).
Qed.

Lemma lstrip_blank_app sp s : blank sp → lstrip (sp ++ s) = lstrip s.
Proof. induction 1 as [|c sp Hc _ IH]; simpl; [done|]. by rewrite Hc. Qed.

Lemma lstrip_blank sp : blank sp → lstrip sp = [].
Proof. intros H. by rewrite <- (app_nil_r sp), lstrip_blank_app. Qed.

Lemma lstrip_app s r :
  lstrip (s ++ r) = match lstrip s with [] => lstrip r | _ :: _ => lstrip s ++ r end.
Proof.
  induction s as [|c s IH]; simpl; [by destruct (lstrip r)|].
  by destruct (is_space c).
Qed.

Lemma blank_rev sp : blank sp → blank (rev sp).
Proof.
  unfold blank. rewrite !Forall_forall. intros H c Hc. apply H.
  by apply list_elem_of_In, in_rev, list_elem_of_In.
Qed.

Lemma rstrip_app_blank s sp : blank sp → rstrip (s ++ sp) = rstrip s.
Proof.
  intros Hsp. unfold rstrip. rewrite rev_app_distr.
  by rewrite lstrip_blank_app by by apply blank_rev.
Qed.

(** White space around a text does not count for [strip]. *)
Lemma strip_pad l s r : blank l → blank r → strip (l ++ s ++ r) = strip s.
Proof.
  intros Hl Hr. unfold strip. rewrite lstrip_blank_app, lstrip_app by done.
  destruct (lstrip s) as [|c t] eqn:E.
  - by rewrite lstrip_blank.
  - by rewrite rstrip_app_blank.
Qed.

Lemma strip_trimmed s :
  (∀ c, head s = Some c → is_space c = false) → ends_with_char s = true →
  strip s = s.
Proof.
  intros Hhead Hend. unfold strip. rewrite (lstrip_id s); [by apply rstrip_id|].
  destruct s as [|c s]; [done|]. by apply Hhead.
Qed.

Lemma split_pad_prefix sp m :
  ","%char ∉ sp →
  split "," (sp ++ m)
  = match split "," m with p :: ps => (sp ++ p) :: ps | [] => [sp] end.
Proof.
  induction sp as [|c sp IH]; simpl; intros Hnot.
  - pose proof (split_nonempty "," m). by destruct (split "," m).
  - rewrite decide_False by (intros ->; apply Hnot; left).
    rewrite IH by (intros ?; apply Hnot; by right).
    by destruct (split "," m).
Qed.

Lemma split_pad_suffix sp m :
  ","%char ∉ sp →
  ∃ ps p, split "," m = ps ++ [p] ∧ split "," (m ++ sp) = ps ++ [p ++ sp].
Proof.
  intros Hnot. induction m as [|c m (ps & p & Hm & Hsp)]; simpl.
  - exists [], []. by rewrite split_without_sep.
  - destruct (decide (c = ","%char)) as [->|Hne].
    + exists ([] :: ps), p. by rewrite Hm, Hsp.
    + rewrite Hm, Hsp. destruct ps as [|q ps]; simpl.
      * by exists [], (c :: p).
      * by exists ((c :: q) :: ps), p.
Qed.

(** The list comprehension of the modifier block over given pieces. *)
Lemma trimmed_pieces_ext (ps qs : list text) :
  Forall2 (λ p q, strip p = strip q) ps qs →
  strip <$> filter (λ m, truthy (strip m)) ps
  = strip <$> filter (λ m, truthy (strip m)) qs.
Proof.
  induction 1 as [|p q ps qs Hpq _ IH]; [done|].
  rewrite !filter_cons, Hpq. case_decide; [|done].
  by rewrite !fmap_cons, Hpq, IH.
Qed.

Lemma modifier_list_pad l m r :
  blank l → blank r → modifier_list (l ++ m ++ r) = modifier_list m.
Proof.
  intros Hl Hr. unfold modifier_list.
  destruct (split_pad_suffix r m (blank_no_comma r Hr)) as (ps & p & Hm & Hmr).
  rewrite (split_pad_prefix l (m ++ r)) by by apply blank_no_comma.
  rewrite Hmr, Hm. apply trimmed_pieces_ext.
  assert (Hrefl : Forall2 (λ p q : text, strip p = strip q) ps ps).
  { by apply Forall_Forall2_diag, Forall_true. }
  destruct ps as [|q ps]; simpl.
  - constructor; [|constructor]. by apply strip_pad.
  - apply Forall2_cons in Hrefl as [_ Hrefl]. constructor.
    + rewrite <- (app_nil_r q) at 1. apply strip_pad; [done|constructor].
    + apply Forall2_app; [done|]. constructor; [|constructor].
      apply (strip_pad [] p r); [constructor|done].
Qed.

Lemma modifier_list_strip m : modifier_list (strip m) = modifier_list m.
Proof.
  destruct (strip_infix m) as (sp1 & sp2 & Hm & H1 & H2).
  rewrite Hm at 2. by rewrite modifier_list_pad.
Qed.

Lemma piece_no_comma p : proper_piece p → ","%char ∉ piece_text p.
Proof.
  destruct p as [[l [o|]] r]; unfold proper_piece, piece_text; simpl;
    intros (Hl%blank_no_comma & Hr%blank_no_comma & Ho);
    rewrite ?not_elem_of_app; [|done].
  destruct Ho as (_ & Hc & _). done.
Qed.

Lemma strip_piece p :
  proper_piece p → strip (piece_text p) = from_option option_text [] p.1.2.
Proof.
  destruct p as [[l [o|]] r]; unfold proper_piece, piece_text;
    cbn [fst snd from_option];
    intros (Hl & Hr & Ho); rewrite strip_pad by done; [|done].
  destruct Ho as (_ & _ & _ & Hhead & Hend). by apply strip_trimmed.
Qed.

(** The options that the list comprehension finds between the commas. *)
Lemma modifier_list_pieces (pieces : list (text * option (text * option text) * text)) :
  Forall proper_piece pieces →
  modifier_list (join (txt ",") (piece_text <$> pieces))
  = option_text <$> omap (λ p, p.1.2) pieces.
Proof.
  intros Hp. destruct pieces as [|p0 pieces]; [done|].
  unfold modifier_list. change (txt ",") with [","%char].
  rewrite split_join; [|done|].
  2:{ apply Forall_fmap. eapply Forall_impl; [exact Hp|]. apply piece_no_comma. }
  induction Hp as [|p ps Hp _ IH]; [done|].
  rewrite fmap_cons, filter_cons, (strip_piece p Hp).
  destruct p as [[l [o|]] r]; cbn [fst snd from_option omap list_omap].
  - assert (Hne : option_text o ≠ []).
    { by destruct Hp as (_ & _ & _ & _ & Hne & _). }
    rewrite decide_True by (by destruct (option_text o)).
    rewrite fmap_cons, (strip_piece _ Hp). cbn [fst snd from_option].
    by rewrite IH.
  - rewrite decide_False by (intros H; exact H). apply IH.
Qed.

Lemma mod_name_option o : "="%char ∉ o.1 → mod_name (option_text o) = o.1.
Proof.
  destruct o as [name [value|]]; unfold mod_name, option_text; simpl; intros Hn.
  - by rewrite split_app_sep.
  - by rewrite split_without_sep.
Qed.

Lemma valid_modifiers_pieces (pieces : list (text * option (text * option text) * text)) :
  Forall proper_piece pieces →
  valid_modifiers cfg (strip (join (txt ",") (piece_text <$> pieces)))
  = option_text <$> filter (λ o, o.1 ∈ supported_modifiers cfg)
                           (omap (λ p, p.1.2) pieces).
Proof.
  intros Hp. unfold valid_modifiers.
  rewrite modifier_list_strip, modifier_list_pieces by done.
  induction Hp as [|p ps Hp _ IH]; [done|].
  destruct p as [[l [o|]] r]; cbn [fst snd omap list_omap]; [|done].
  destruct Hp as (_ & _ & Hname & _). simpl in Hname.
  rewrite fmap_cons, !filter_cons, mod_name_option, IH by done.
  by case_decide.
Qed.
End OptionPieces.

(** The [if '$' in rule:] block finds the options of a rule and keeps the
    supported ones. For a rule made of a pattern without [$], a [$], and
    pieces separated by commas, where a piece is an option (a name, or a name,
    [=] and a value) with any white space around it, or white space only:
    exactly the options whose name is in the allow-list are kept, without the
    white space, whatever their values; they are put in lexicographic order
    and joined with commas behind the stripped pattern and a [$]; when none is
    kept the stripped pattern stands alone. *)
Theorem filter_modifiers_keeps_allowed_sorted
    (cfg : config) (pattern : text)
    (pieces : list (text * option (text * option text) * text)) :
  "$"%char ∉ pattern →
  Forall proper_piece pieces →
  ∃ kept,
    kept ≡ₚ option_text <$> filter (λ o, o.1 ∈ supported_modifiers cfg)
                                   (omap (λ p, p.1.2) pieces)
    ∧ Sorted (in_order Str.ltb) kept
    ∧ filter_modifiers cfg
        (pattern ++ "$"%char :: Str.join (txt ",") (piece_text <$> pieces))
      = match kept with
        | [] => Str.strip pattern
        | _ :: _ => Str.strip pattern ++ txt "$" ++ Str.join (txt ",") kept
        end.
Proof.
  intros Hpat Hp.
  exists (sorted_texts
            (valid_modifiers cfg
               (Str.strip (Str.join (txt ",") (piece_text <$> pieces))))).
  split; [rewrite sorted_texts_Permutation; by rewrite valid_modifiers_pieces|].
  split; [apply sorted_texts_Sorted|].
  unfold filter_modifiers, Str.contains.
  rewrite bool_decide_eq_true_2 by (apply elem_of_app; right; left).
  rewrite split_first_app by done.
  destruct (valid_modifiers cfg _) as [|v vs] eqn:E; [done|].
  pose proof (sorted_texts_Permutation (v :: vs)) as Hperm.
  destruct (sorted_texts (v :: vs)); [|done].
  by apply Permutation_nil_l in Hperm.
Qed.

Lemma filter_modifiers_keeps_allowed_sorted_witness :
  ∃ kept,
    kept ≡ₚ option_text <$> filter (λ o, o.1 ∈ supported_modifiers default_config)
                                   (omap (λ p, p.1.2) sample_pieces)
    ∧ Sorted (in_order Str.ltb) kept
    ∧ filter_modifiers default_config
        (txt "||bad.com^ " ++ "$"%char
           :: Str.join (txt ",") (piece_text <$> sample_pieces))
      = match kept with
        | [] => Str.strip (txt "||bad.com^ ")
        | _ :: _ => Str.strip (txt "||bad.com^ ") ++ txt "$"
                    ++ Str.join (txt ",") kept
        end.
Proof.
  apply (filter_modifiers_keeps_allowed_sorted default_config
           (txt "||bad.com^ ") sample_pieces).
  - apply (bool_decide_unpack _). vm_compute. reflexivity.
  - unfold sample_pieces, proper_piece, proper_option, blank.
    repeat (apply Forall_cons; split); try apply Forall_nil;
      cbn [fst snd from_option option_text]; try split_and!; try done;
      try (apply (bool_decide_unpack _); vm_compute; reflexivity);
      try (by repeat constructor);
      intros c [= <-]; reflexivity.
Defined.
